(** * JewelleryAI: the Streamlit image-generation script (main.py)

    A shallow embedding of [main.py].  The script is re-executed from top to
    bottom on every user interaction; one execution is modelled as a
    computation in a small state-and-exception monad over a [World] made of
    - [st.session_state], a dictionary from attribute names to Python values,
    - the elements written to the page ([st.error], [st.image], ...),
    - the log of calls made to the external generation service.
    The image codec ([Image.open], and what [st.image] raises when it draws
    an image) is a parameter of the development; the environment, the secrets
    store, the generation service and the widget values are inputs of each
    execution. *)

From Stdlib Require Import String Ascii List ZArith Lia.
From stdpp Require Import base option list strings gmap.

(** ** Python exceptions *)

(** The exceptions the script can meet.  [ServiceError] stands for whatever
    [client.models.generate_content] raises (network, authentication, quota),
    [StreamlitSecretNotFoundError] is what [st.secrets] raises when there is no
    secrets file, [OSError] what drawing an image raises when its data cannot
    be read. *)
Inductive Exception :=
  | ServiceError (msg : string)
  | UnidentifiedImageError
  | AttributeError (name : string)
  | IndexError
  | TypeError
  | StreamlitSecretNotFoundError
  | OSError (msg : string).

(** [st.stop()] and [st.rerun()] raise script-control exceptions, which derive
    from [BaseException]: an [except Exception] clause does not catch them. *)
Inductive BaseException :=
  | Exc (e : Exception)
  | StopException
  | RerunException.

(** ** The reply of the generation service *)

Definition bytes := list Byte.byte.

Record Part := { text : option string; inline_data : option bytes }.
Record Content := { parts : option (list Part) }.
Record Candidate := { content : option Content }.
Record GenerateContentResponse := { candidates : option (list Candidate) }.

(** ** A sample codec, for concrete runs

    Images are identified by the size of their payload; the empty payload is
    not recognised. *)
Module Sample.

Definition Image : Type := nat.

Definition Image_open (data : bytes) : option Image :=
  match data with
  | [] => None
  | _ :: _ => Some (length data)
  end.

(** Two uploads, of two and of four bytes. *)
Definition sketch : bytes := [Byte.xff; Byte.xd8].
Definition photo : bytes := [Byte.x89; Byte.x50; Byte.x4e; Byte.x47].

Definition reply (ps : list Part) : GenerateContentResponse :=
  {| candidates := Some [{| content := Some {| parts := Some ps |} |}] |}.

Definition text_part (t : string) : Part :=
  {| text := Some t; inline_data := None |}.

Definition image_part (data : bytes) : Part :=
  {| text := None; inline_data := Some data |}.

(** A reply with text only, one with text and an image (of three bytes), and
    one with two images (of one byte and of three). *)
Definition reply_text : GenerateContentResponse :=
  reply [text_part "I cannot draw that."].

Definition reply_image : GenerateContentResponse :=
  reply [text_part "A gold ring."; image_part [Byte.x01; Byte.x02; Byte.x03]].

Definition reply_two_images : GenerateContentResponse :=
  reply [image_part [Byte.x07]; text_part "Two views.";
         image_part [Byte.x01; Byte.x02; Byte.x03]].

End Sample.


Section Script.

(** [PIL.Image.Image] objects, and [Image.open], which raises on a payload it
    does not recognise. *)
Context {Image : Type} (Image_open : bytes → option Image).

(** ** Python values held by the script *)

Inductive Value :=
  | VNone
  | VStr (s : string)
  | VImage (i : Image)
  | VList (l : list Image).

(** Python truthiness ([if v:], [not v], [a or b]).  A PIL image defines
    neither [__bool__] nor [__len__], so it is always true. *)
Definition truthy (v : Value) : bool :=
  match v with
  | VNone => false
  | VStr s => negb (String.eqb s "")
  | VImage _ => true
  | VList l => negb (Nat.eqb (length l) 0)
  end.

(** A piece of an f-string or of a plain message. *)
Inductive Fmt :=
  | Lit (s : string)
  | FmtValue (v : Value)
  | FmtExc (e : Exception)
  | FmtNat (n : nat).

(** What the script writes to the page, in order. *)
Inductive UiEvent :=
  | st_error (msg : list Fmt)
  | st_warning (msg : list Fmt)
  | st_info (msg : list Fmt)
  | st_success (msg : list Fmt)
  | st_set_page_config
  | st_title (s : string)
  | st_header (s : string)
  | st_subheader (s : string)
  | st_markdown (msg : list Fmt)
  | st_columns
  | st_file_uploader (label : string)
  | st_text_area (label : string)
  | st_button (label : string)
  | st_image (img : Value) (caption : list Fmt).

(** One call of [client.models.generate_content]: the [contents] sent and what
    the service did (raised, or returned a response). *)
Definition Call : Type := list Value * (Exception + GenerateContentResponse).

Record World := {
  session_state : gmap string Value;
  page : list UiEvent;
  calls : list Call
}.

(** ** The monad of script executions *)

Definition M (A : Type) : Type := World → World * (BaseException + A).

#[local] Instance M_ret : MRet M := λ A a w, (w, inr a).
#[local] Instance M_bind : MBind M := λ A B f m w,
  match m w with
  | (w', inr a) => f a w'
  | (w', inl e) => (w', inl e)
  end.

Definition raise {A} (e : BaseException) : M A := λ w, (w, inl e).

(** [try: body except Exception as e: handler e] *)
Definition try_except {A} (body : M A) (handler : Exception → M A) : M A :=
  λ w, match body w with
       | (w', inl (Exc e)) => handler e w'
       | r => r
       end.

Definition emit (ev : UiEvent) : M unit := λ w,
  ({| session_state := session_state w; page := page w ++ [ev];
      calls := calls w |}, inr tt).

(** [Image.open] is lazy: it reads the header only, and an image it accepted
    can still fail to load when it is drawn.  [st_image_raises v] is what
    [st.image(v, ...)] raises on [v], if anything. *)
Context (st_image_raises : Value → option Exception).

(** [st.image(v, caption=...)] *)
Definition show_image (v : Value) (caption : list Fmt) : M unit :=
  match st_image_raises v with
  | Some e => raise (Exc e)
  | None => emit (st_image v caption)
  end.

(** [key in st.session_state] *)
Definition contains (key : string) : M bool := λ w,
  (w, inr (bool_decide (is_Some (session_state w !! key)))).

(** [st.session_state.key]; Streamlit raises [AttributeError] on a missing key. *)
Definition getattr (key : string) : M Value := λ w,
  match session_state w !! key with
  | Some v => (w, inr v)
  | None => (w, inl (Exc (AttributeError key)))
  end.

(** [st.session_state.key = v] *)
Definition setattr (key : string) (v : Value) : M unit := λ w,
  ({| session_state := <[key := v]> (session_state w); page := page w;
      calls := calls w |}, inr tt).

(** [st.session_state.key.extend(imgs)]: the list object stored under [key] is
    mutated in place; it is referenced from the session state only. *)
Definition extend (key : string) (imgs : list Image) : M unit :=
  v ← getattr key;
  match v with
  | VList l => setattr key (VList (l ++ imgs))
  | _ => raise (Exc (AttributeError "extend"))
  end.

(** [st.session_state.key.append(img)] *)
Definition append (key : string) (img : Image) : M unit :=
  v ← getattr key;
  match v with
  | VList l => setattr key (VList (l ++ [img]))
  | _ => raise (Exc (AttributeError "append"))
  end.

(** [client.models.generate_content(contents=contents, ...)], logged. *)
Definition generate_content
    (client : list Value → Exception + GenerateContentResponse)
    (contents : list Value) : M GenerateContentResponse := λ w,
  let r := client contents in
  let w' := {| session_state := session_state w; page := page w;
               calls := calls w ++ [(contents, r)] |} in
  match r with
  | inl e => (w', inl (Exc e))
  | inr resp => (w', inr resp)
  end.

(** [[Image.open(img) for img in files]] *)
Fixpoint open_all (files : list bytes) : M (list Image) :=
  match files with
  | [] => mret []
  | f :: rest =>
      match Image_open f with
      | None => raise (Exc UnidentifiedImageError)
      | Some i => imgs ← open_all rest; mret (i :: imgs)
      end
  end.

Definition lift {A} (r : Exception + A) : M A := λ w,
  match r with
  | inl e => (w, inl (Exc e))
  | inr a => (w, inr a)
  end.

(** ** Decoding the reply *)

Definition newline : string := String (ascii_of_nat 10) EmptyString.

(** [response.candidates[0].content.parts], each step of which raises when the
    SDK left the field empty. *)
Definition response_parts (response : GenerateContentResponse)
    : Exception + list Part :=
  match candidates response with
  | None => inl TypeError
  | Some [] => inl IndexError
  | Some (candidate :: _) =>
      match content candidate with
      | None => inl (AttributeError "parts")
      | Some c =>
          match parts c with
          | None => inl TypeError
          | Some ps => inr ps
          end
      end
  end.

(** The loop over the reply's parts, from the values [generated_text] and
    [generated_image] hold when the iteration reaches [ps]:
    [if part.text is not None: generated_text += part.text + "\n"]
    [elif part.inline_data is not None: generated_image = Image.open(...)]. *)
Fixpoint part_loop (ps : list Part) (generated_text : string)
    (generated_image : option Image) : Exception + (string * option Image) :=
  match ps with
  | [] => inr (generated_text, generated_image)
  | part :: rest =>
      match text part with
      | Some t => part_loop rest (generated_text +:+ (t +:+ newline)) generated_image
      | None =>
          match inline_data part with
          | Some data =>
              match Image_open data with
              | None => inl UnidentifiedImageError
              | Some img => part_loop rest generated_text (Some img)
              end
          | None => part_loop rest generated_text generated_image
          end
      end
  end.

(** What a round makes of a response: its text and its image, if any. *)
Definition decode_response (response : GenerateContentResponse)
    : Exception + (string * option Image) :=
  match response_parts response with
  | inl e => inl e
  | inr ps => part_loop ps "" None
  end.

(** ** The two handlers *)

Definition Client : Type := list Value → Exception + GenerateContentResponse.

(** Body of [if st.button("Generate Initial Image", ...):] (lines 37-74). *)
Definition generate_initial_handler (client : Client)
    (initial_prompt : string) (uploaded_images : list bytes) : M unit :=
  if negb (truthy (VStr initial_prompt)) then
    emit (st_warning [Lit "Please enter an initial prompt."])
  else
    emit (st_info [Lit "Generating initial image... This may take a moment."]);;
    try_except
      (contents ←
         (if negb (Nat.eqb (length uploaded_images) 0) then
            images_for_content ← open_all uploaded_images;
            setattr "image_history" (VList images_for_content);;
            mret ([VStr initial_prompt] ++ map VImage images_for_content)
          else mret [VStr initial_prompt]);
       response ← generate_content client contents;
       r ← lift (decode_response response);
       match r with
       | (generated_text, Some generated_image) =>
           setattr "last_generated_image" (VImage generated_image);;
           setattr "last_text_response" (VStr generated_text);;
           append "generated_images" generated_image;;
           emit (st_success [Lit "Initial image generated successfully!"])
       | (generated_text, None) =>
           emit (st_warning
             [Lit "No image was generated. The model might have only returned text."]);;
           setattr "last_text_response" (VStr generated_text)
       end)
      (λ e, emit (st_error
         [Lit "An error occurred during initial generation: "; FmtExc e])).

(** Body of [if st.button("Generate Next Version", ...):] (lines 103-150). *)
Definition generate_next_version_handler (client : Client)
    (followup_prompt : string) (followup_uploaded_images : list bytes) : M unit :=
  if negb (truthy (VStr followup_prompt)) then
    emit (st_warning [Lit "Please enter a prompt for the next version."])
  else
    emit (st_info [Lit "Generating next image version... This may take a moment."]);;
    try_except
      (last ← getattr "last_generated_image";
       let contents_followup :=
         [VStr followup_prompt] ++ (if truthy last then [last] else []) in
       contents_followup ←
         (if negb (Nat.eqb (length followup_uploaded_images) 0) then
            new_context_images ← open_all followup_uploaded_images;
            extend "image_history" new_context_images;;
            mret (contents_followup ++ map VImage new_context_images)
          else mret contents_followup);
       response_followup ← generate_content client contents_followup;
       r ← lift (decode_response response_followup);
       match r with
       | (generated_text_followup, Some generated_image_followup) =>
           setattr "last_generated_image" (VImage generated_image_followup);;
           setattr "last_text_response" (VStr generated_text_followup);;
           append "generated_images" generated_image_followup;;
           emit (st_success [Lit "Image refined successfully!"]);;
           raise RerunException
       | (generated_text_followup, None) =>
           emit (st_warning
             [Lit "No new image was generated. The model might have only returned text."]);;
           setattr "last_text_response" (VStr generated_text_followup)
       end)
      (λ e, emit (st_error
         [Lit "An error occurred during follow-up generation: "; FmtExc e])).

(** ** Session state initialisation (lines 22-29) *)

(** [if key not in st.session_state: st.session_state.key = default] *)
Definition init_key (key : string) (default : Value) : M unit :=
  present ← contains key;
  if negb present then setattr key default else mret tt.

Definition initialize : M unit :=
  init_key "generated_images" (VList []);;
  init_key "image_history" (VList []);;
  init_key "last_generated_image" VNone;;
  init_key "last_text_response" (VStr "").

(** ** The script, one execution *)

(** What the script finds around it: the process environment, Streamlit's
    secrets store ([None] when there is no secrets file), and the generation
    service behind a client built with a given API key. *)
Record Env := {
  environ : gmap string string;
  secrets : option (gmap string string);
  service : Value → Client
}.

(** The values the widgets return in this execution. *)
Record Widgets := {
  uploaded_images : list bytes;
  initial_prompt : string;
  generate_initial : bool;
  followup_prompt : string;
  followup_uploaded_images : list bytes;
  generate_next_version : bool
}.

(** [os.getenv(key)], and [.get(key)] on a secrets store that exists: the
    string, or [None]. *)
Definition get_str (m : gmap string string) (key : string) : Value :=
  match m !! key with
  | Some s => VStr s
  | None => VNone
  end.

(** [st.secrets.get(key)]: reading the store parses the secrets file, and
    raises when there is none. *)
Definition secrets_get (store : option (gmap string string)) (key : string)
    : Exception + Value :=
  match store with
  | None => inl StreamlitSecretNotFoundError
  | Some m => inr (get_str m key)
  end.

(** [GEMINI_KEY = os.getenv("GEMINI_KEY") or st.secrets.get("GEMINI_KEY")]:
    [or] evaluates its right operand only when the left one is false. *)
Definition GEMINI_KEY (env : Env) : Exception + Value :=
  let from_env := get_str (environ env) "GEMINI_KEY" in
  if truthy from_env then inr from_env
  else secrets_get (secrets env) "GEMINI_KEY".

(** [for i, img in enumerate(...): st.image(img, caption=f"Generated Image {i+1}")],
    from index [i] on. *)
Fixpoint gallery (imgs : list Image) (i : nat) : M unit :=
  match imgs with
  | [] => mret tt
  | img :: rest =>
      show_image (VImage img) [Lit "Generated Image "; FmtNat (i + 1)];;
      gallery rest (S i)
  end.

(** The refinement form (lines 79-150). *)
Definition refine_section (client : Client) (wd : Widgets) : M unit :=
  last ← getattr "last_generated_image";
  if truthy last then
    emit st_columns;;
    emit (st_subheader "Last Generated Image");;
    show_image last [Lit "Current Image"];;
    description ← getattr "last_text_response";
    (if truthy description
     then emit (st_markdown [Lit "**Description:**"; Lit newline; FmtValue description])
     else mret tt);;
    emit (st_subheader "Modify/Refine");;
    emit (st_text_area "Enter your next prompt to modify the image:");;
    emit (st_file_uploader "Upload additional images for context (optional)");;
    emit (st_button "Generate Next Version");;
    if generate_next_version wd
    then generate_next_version_handler client (followup_prompt wd)
           (followup_uploaded_images wd)
    else mret tt
  else mret tt.

(** The list of all generated images (lines 153-159).  Under the session
    invariant the attribute holds a list; iterating anything else is an error. *)
Definition gallery_section : M unit :=
  generated ← getattr "generated_images";
  if truthy generated then
    emit (st_markdown [Lit "---"]);;
    emit (st_subheader "All Generated Images in this Session");;
    match generated with
    | VList imgs => gallery imgs 0
    | _ => raise (Exc TypeError)
    end
  else mret tt.

Definition key_not_found : string :=
  "Gemini API key not found. Please set it in your environment variables "
  +:+ "or Streamlit secrets.".

(** The credential check (lines 10-14). *)
Definition check_key (key : Value) : M unit :=
  if negb (truthy key) then
    emit (st_error [Lit key_not_found]);;
    raise StopException
  else mret tt.

(** The initial form (lines 32-74). *)
Definition initial_section (client : Client) (wd : Widgets) : M unit :=
  emit (st_header "Start a new image generation");;
  emit (st_file_uploader "Upload one or more images (optional)");;
  emit (st_text_area "Enter your initial prompt for image generation");;
  emit (st_button "Generate Initial Image");;
  if generate_initial wd
  then generate_initial_handler client (initial_prompt wd) (uploaded_images wd)
  else mret tt.

Definition main (env : Env) (wd : Widgets) : M unit :=
  key ← lift (GEMINI_KEY env);
  check_key key;;
  let client := service env key in
  emit st_set_page_config;;
  emit (st_title "Gemini Image Generation");;
  initialize;;
  initial_section client wd;;
  refine_section client wd;;
  gallery_section.

(** A session is a sequence of executions, each with its own widget values
    and its own behaviour of the environment; the session state is carried
    from one to the next, the page is redrawn, the call log accumulates. *)
Fixpoint run_session (runs : list (Env * Widgets)) (w : World) : World :=
  match runs with
  | [] => w
  | (env, wd) :: rest =>
      let w1 := (main env wd
                   {| session_state := session_state w; page := [];
                      calls := calls w |}).1 in
      run_session rest w1
  end.

(** A fresh connection: nothing in the session state, nothing drawn, no call. *)
Definition fresh : World := {| session_state := ∅; page := []; calls := [] |}.

(** ** The Session of the specification, read off the session state *)

Record Session := {
  contextImages : list Image;
  currentImage : option Image;
  currentDescription : string;
  history : list Image
}.

(** The four attributes of the script, with the shapes the script gives them:
    [image_history] and [generated_images] lists of images,
    [last_generated_image] an image or [None], [last_text_response] a string. *)
Definition session_of (ss : gmap string Value) : option Session :=
  match ss !! "image_history", ss !! "last_generated_image",
        ss !! "last_text_response", ss !! "generated_images" with
  | Some (VList ctx), Some VNone, Some (VStr d), Some (VList h) =>
      Some {| contextImages := ctx; currentImage := None;
              currentDescription := d; history := h |}
  | Some (VList ctx), Some (VImage i), Some (VStr d), Some (VList h) =>
      Some {| contextImages := ctx; currentImage := Some i;
              currentDescription := d; history := h |}
  | _, _, _, _ => None
  end.

(** The session state that holds a given Session and nothing else. *)
Definition state_of (s : Session) : gmap string Value :=
  <["generated_images" := VList (history s)]>
  (<["image_history" := VList (contextImages s)]>
  (<["last_generated_image" := from_option VImage VNone (currentImage s)]>
  (<["last_text_response" := VStr (currentDescription s)]> ∅))).

Definition empty_session : Session :=
  {| contextImages := []; currentImage := None; currentDescription := "";
     history := [] |}.

(** The generated images on record, whatever else the state holds. *)
Definition history_of (ss : gmap string Value) : list Image :=
  match ss !! "generated_images" with
  | Some (VList h) => h
  | _ => []
  end.

(** The image a call's reply decodes to, if the call returned and the reply
    decodes to a result with an image. *)
Definition result_image (c : Call) : option Image :=
  match c.2 with
  | inl _ => None
  | inr response =>
      match decode_response response with
      | inr (_, Some img) => Some img
      | _ => None
      end
  end.

(** The images of the rounds on the call log, one per round whose result
    included an image. *)
Definition round_images (cs : list Call) : list Image := omap result_image cs.

(** The parts sequence of the specification's [runRound]: the prompt, the seed
    image if present, the uploaded images in order. *)
Definition request_parts (prompt : string) (seedImage : option Image)
    (uploadedImages : list Image) : list Value :=
  [VStr prompt] ++ from_option (λ i, [VImage i]) [] seedImage
    ++ map VImage uploadedImages.

(** The specification's reading of a reply's parts.  A text part is a part
    whose [text] is set; an image part is a part that is not a text part and
    carries inline data (the service sets one data field per part). *)
Definition text_parts (ps : list Part) : list string := omap text ps.

Definition image_parts (ps : list Part) : list bytes :=
  omap (λ p, match text p with Some _ => None | None => inline_data p end) ps.

Definition spec_text (ps : list Part) : string :=
  foldr (λ t acc, t +:+ newline +:+ acc) "" (text_parts ps).

Definition spec_image (ps : list Part) : option Image :=
  last (image_parts ps) ≫= Image_open.

(** The specification's [recordRound]. *)
Definition recordRound (result : string * option Image)
    (newContextImages : list Image) (s : Session) : Session :=
  match result.2 with
  | Some img =>
      {| contextImages := contextImages s ++ newContextImages;
         currentImage := Some img;
         currentDescription := result.1;
         history := history s ++ [img] |}
  | None =>
      {| contextImages := contextImages s ++ newContextImages;
         currentImage := currentImage s;
         currentDescription := result.1;
         history := history s |}
  end.

(** The Session with other context images. *)
Definition with_context (ctx : list Image) (s : Session) : Session :=
  {| contextImages := ctx; currentImage := currentImage s;
     currentDescription := currentDescription s; history := history s |}.

(** The initial handler stores a non-empty upload in place of the context
    images it finds. *)
Definition initial_context (imgs : list Image) (s : Session) : Session :=
  match imgs with
  | [] => s
  | _ :: _ => with_context imgs s
  end.

(** The image left in [generated_image] once the image parts [imgs] have been
    decoded, when it held [before] on entry. *)
Definition last_or (before : option Image) (imgs : list Image) : option Image :=
  match last imgs with
  | Some img => Some img
  | None => before
  end.

(** What every step of an execution does to a state that holds a Session: it
    leaves a Session there, extends the call log, and extends the generated
    images by the images of the new calls. *)
Definition extends (w w' : World) : Prop :=
  ∀ s, session_of (session_state w) = Some s →
    ∃ s' new, session_of (session_state w') = Some s' ∧
              calls w' = calls w ++ new ∧
              history s' = history s ++ round_images new.

Definition sound {A} (m : M A) : Prop := ∀ w, extends w (m w).1.

(** Two worlds are related when the second's call log extends the first's and
    its generated images extend the first's by the images of the new calls. *)
Definition advances (w w' : World) : Prop :=
  ∃ new, calls w' = calls w ++ new ∧
         history_of (session_state w') =
           history_of (session_state w) ++ round_images new.

(** A state the script has initialised, or can still initialise: whatever of
    the four attributes it holds has the shape the script gives it. *)
Definition wf (ss : gmap string Value) : Prop :=
  is_Some (session_of (ss ∪ state_of empty_session)).

(** ** What a round shows *)

(** The result a round gets for the contents it sends: the exception of the
    call or of the decoding, or the decoded text and image. *)
Definition round_result (client : Client) (contents : list Value)
    : Exception + (string * option Image) :=
  match client contents with
  | inl e => inl e
  | inr response => decode_response response
  end.

(** The message that closes an initial round. *)
Definition initial_feedback (r : Exception + (string * option Image)) : UiEvent :=
  match r with
  | inl e => st_error [Lit "An error occurred during initial generation: "; FmtExc e]
  | inr (_, Some _) => st_success [Lit "Initial image generated successfully!"]
  | inr (_, None) =>
      st_warning [Lit "No image was generated. The model might have only returned text."]
  end.

(** The message that closes a follow-up round. *)
Definition followup_feedback (r : Exception + (string * option Image)) : UiEvent :=
  match r with
  | inl e => st_error [Lit "An error occurred during follow-up generation: "; FmtExc e]
  | inr (_, Some _) => st_success [Lit "Image refined successfully!"]
  | inr (_, None) =>
      st_warning [Lit "No new image was generated. The model might have only returned text."]
  end.

(** How a follow-up round ends: with [st.rerun()] after a new image, normally
    otherwise. *)
Definition followup_outcome (r : Exception + (string * option Image))
    : BaseException + unit :=
  match r with
  | inr (_, Some _) => inl RerunException
  | _ => inr tt
  end.

(** ** How a computation may end *)

(** [raises_only ok m]: whenever [m] ends by raising, what it raises is [ok]. *)
Definition raises_only (ok : BaseException → Prop) {A} (m : M A) : Prop :=
  ∀ w, match (m w).2 with
       | inl b => ok b
       | inr _ => True
       end.

(** The exceptions an [except Exception] clause catches. *)
Definition is_Exception (b : BaseException) : Prop :=
  match b with
  | Exc _ => True
  | _ => False
  end.

(** An exception, or the request for a rerun. *)
Definition Exception_or_rerun (b : BaseException) : Prop :=
  match b with
  | StopException => False
  | _ => True
  end.

(** ** Invariants of a session *)

(** The state holds a Session whose current image is the last generated one
    (and is absent when none was generated). *)
Definition coherent (ss : gmap string Value) : Prop :=
  ∃ s, session_of ss = Some s ∧ currentImage s = last (history s).

(** Contents made of a non-empty prompt followed by images only. *)
Definition prompt_then_images (contents : list Value) : Prop :=
  ∃ prompt imgs, prompt ≠ "" ∧ contents = VStr prompt :: map VImage imgs.

Definition invariant (ss : gmap string Value) (cs : list Call) : Prop :=
  coherent ss ∧ Forall (λ c, prompt_then_images c.1) cs.

(** The same, for a state that may not be initialised yet. *)
Definition session_invariant (ss : gmap string Value) (cs : list Call) : Prop :=
  (ss = ∅ ∨ coherent ss) ∧ Forall (λ c, prompt_then_images c.1) cs.

Definition preserves (P : gmap string Value → list Call → Prop) {A}
    (m : M A) : Prop :=
  ∀ w, P (session_state w) (calls w) →
       P (session_state (m w).1) (calls (m w).1).

(** ** Images that can be drawn *)

Definition all_render (imgs : list Image) : Prop :=
  Forall (λ img, st_image_raises (VImage img) = None) imgs.

Definition current_renders (s : Session) : Prop :=
  match currentImage s with
  | Some img => st_image_raises (VImage img) = None
  | None => True
  end.

(** How an execution that found the key may end: normally, by asking for a
    rerun, or on what [st.image] raised on some value. *)
Definition ends_or_st_image_raised (o : BaseException + unit) : Prop :=
  o = inr tt ∨ o = inl RerunException ∨
  ∃ v e, st_image_raises v = Some e ∧ o = inl (Exc e).

(** ** Environments and inputs for concrete runs *)

(** An environment with a key, whose service answers every call with [r]. *)
Definition env_replying (r : Exception + GenerateContentResponse) : Env :=
  {| environ := {["GEMINI_KEY" := "key"]}; secrets := Some ∅;
     service := λ _ _, r |}.

(** The world of an execution that finds Session [s] and nothing else. *)
Definition world_of (s : Session) : World :=
  {| session_state := state_of s; page := []; calls := [] |}.

(** The user presses "Generate Initial Image". *)
Definition submit_initial (prompt : string) (ups : list bytes) : Widgets :=
  {| uploaded_images := ups; initial_prompt := prompt; generate_initial := true;
     followup_prompt := ""; followup_uploaded_images := [];
     generate_next_version := false |}.

(** The user presses "Generate Next Version". *)
Definition submit_followup (prompt : string) (ups : list bytes) : Widgets :=
  {| uploaded_images := []; initial_prompt := ""; generate_initial := false;
     followup_prompt := prompt; followup_uploaded_images := ups;
     generate_next_version := true |}.

(** * Properties *)

(** ** Executing the monad *)

Lemma open_all_mapM (files : list bytes) (w : World) :
  open_all files w =
    match mapM Image_open files with
    | Some imgs => (w, inr imgs)
    | None => (w, inl (Exc UnidentifiedImageError))
    end.
Proof.
  revert w. induction files as [|f rest IH]; intros w; [done|].
  cbn. destruct (Image_open f) as [i|]; [|done].
  unfold mbind at 1, M_bind. rewrite IH.
  unfold mbind, option_bind. destruct (mapM Image_open rest); done.
Qed.

(** ** Reading the Session off a state *)

Lemma session_of_lookups (ss : gmap string Value) (s : Session) :
  session_of ss = Some s ↔
    ss !! "image_history" = Some (VList (contextImages s)) ∧
    ss !! "last_generated_image" = Some (from_option VImage VNone (currentImage s)) ∧
    ss !! "last_text_response" = Some (VStr (currentDescription s)) ∧
    ss !! "generated_images" = Some (VList (history s)).
Proof.
  unfold session_of. split.
  - intros H.
    destruct (ss !! "image_history") as [[| | |ctx]|]; try discriminate.
    destruct (ss !! "last_generated_image") as [[| |i|]|]; try discriminate;
      destruct (ss !! "last_text_response") as [[|d| |]|]; try discriminate;
      destruct (ss !! "generated_images") as [[| | |h]|]; try discriminate;
      injection H as <-; done.
  - intros (-> & -> & -> & ->). destruct s as [ctx [i|] d h]; done.
Qed.

Lemma truthy_prompt (prompt : string) : prompt ≠ "" → truthy (VStr prompt) = true.
Proof. intros H. cbn. by destruct (String.eqb_spec prompt ""). Qed.

Ltac session_lookups :=
  apply session_of_lookups; cbn [contextImages currentImage currentDescription
    history recordRound with_context fst snd from_option];
  repeat split; simplify_map_eq; try done.

Lemma generate_next_version_handler_session (client : Client) (prompt : string) (ups : list bytes)
    (w : World) (s : Session) :
  session_of (session_state w) = Some s →
  prompt ≠ "" →
  let w' := (generate_next_version_handler client prompt ups w).1 in
  match mapM Image_open ups with
  | None => session_state w' = session_state w ∧ calls w' = calls w
  | Some imgs =>
      let req := request_parts prompt (currentImage s) imgs in
      calls w' = calls w ++ [(req, client req)] ∧
      session_of (session_state w') = Some
        match client req with
        | inl _ => with_context (contextImages s ++ imgs) s
        | inr response =>
            match decode_response response with
            | inl _ => with_context (contextImages s ++ imgs) s
            | inr r => recordRound r imgs s
            end
        end
  end.
Proof.
  intros Hs Hp. cbv zeta.
  apply session_of_lookups in Hs as (Hc & Hl & Hd & Hh).
  unfold generate_next_version_handler. rewrite (truthy_prompt _ Hp). cbn [negb].
  unfold try_except, mbind, M_bind, emit, getattr. cbn [session_state page calls].
  rewrite Hl.
  assert (Hreq : ∀ imgs, ([VStr prompt] ++
      (if truthy (from_option VImage VNone (currentImage s))
       then [from_option VImage VNone (currentImage s)] else [])) ++ map VImage imgs
      = request_parts prompt (currentImage s) imgs).
  { intros imgs. unfold request_parts. by destruct (currentImage s). }
  destruct ups as [|f ups].
  - change (mapM Image_open []) with (Some (@nil Image)).
    cbn [length Nat.eqb negb mret M_ret].
    specialize (Hreq []). cbn [map] in Hreq. rewrite app_nil_r in Hreq. rewrite Hreq.
    rewrite app_nil_r.
    unfold generate_content. cbn [session_state page calls].
    set (req := request_parts _ _ _).
    destruct (client req) as [e|resp]; cbn -[req].
    { split; [done|]. session_lookups. }
    unfold lift. destruct (decode_response resp) as [e|[txt [img|]]]; cbn -[req].
    + split; [done|]. session_lookups.
    + unfold append, getattr, mbind, M_bind, setattr. cbn -[req]. simplify_map_eq.
      cbn -[req]. split; [done|]. rewrite app_nil_r. session_lookups.
    + split; [done|]. rewrite app_nil_r. session_lookups.
  - cbn [length Nat.eqb negb]. rewrite open_all_mapM.
    destruct (mapM Image_open (f :: ups)) as [imgs|]; [|done].
    unfold extend, getattr, mbind, M_bind, setattr. cbn [session_state page calls].
    rewrite Hc. cbn [mret M_ret]. rewrite Hreq.
    unfold generate_content. cbn [session_state page calls].
    set (req := request_parts _ _ _).
    destruct (client req) as [e|resp]; cbn -[req].
    { split; [done|]. session_lookups. }
    unfold lift. destruct (decode_response resp) as [e|[txt [img|]]]; cbn -[req].
    + split; [done|]. session_lookups.
    + unfold append, getattr, mbind, M_bind, setattr. cbn -[req]. simplify_map_eq.
      cbn -[req]. split; [done|]. session_lookups.
    + split; [done|]. session_lookups.
Qed.

Lemma generate_initial_handler_session (client : Client) (prompt : string)
    (ups : list bytes) (w : World) (s : Session) :
  session_of (session_state w) = Some s →
  prompt ≠ "" →
  let w' := (generate_initial_handler client prompt ups w).1 in
  match mapM Image_open ups with
  | None => session_state w' = session_state w ∧ calls w' = calls w
  | Some imgs =>
      let req := request_parts prompt None imgs in
      calls w' = calls w ++ [(req, client req)] ∧
      session_of (session_state w') = Some
        match client req with
        | inl _ => initial_context imgs s
        | inr response =>
            match decode_response response with
            | inl _ => initial_context imgs s
            | inr r => recordRound r [] (initial_context imgs s)
            end
        end
  end.
Proof.
  intros Hs Hp. cbv zeta. pose proof Hs as Hs'.
  apply session_of_lookups in Hs as (Hc & Hl & Hd & Hh).
  unfold generate_initial_handler. rewrite (truthy_prompt _ Hp). cbn [negb].
  unfold try_except, mbind, M_bind, emit. cbn [session_state page calls].
  destruct ups as [|f ups].
  - change (mapM Image_open []) with (Some (@nil Image)).
    cbn [length Nat.eqb negb mret M_ret initial_context].
    change [VStr prompt] with (request_parts prompt None []).
    unfold generate_content. cbn [session_state page calls].
    set (req := request_parts _ _ _).
    destruct (client req) as [e|resp]; cbn -[req]; [done|].
    unfold lift. destruct (decode_response resp) as [e|[txt [img|]]]; cbn -[req].
    + done.
    + unfold append, getattr, mbind, M_bind, setattr. cbn -[req]. simplify_map_eq.
      cbn -[req]. split; [done|]. rewrite app_nil_r. session_lookups.
    + split; [done|]. rewrite app_nil_r. session_lookups.
  - cbn [length Nat.eqb negb]. rewrite open_all_mapM.
    destruct (mapM Image_open (f :: ups)) as [imgs|] eqn:Himgs; [|done].
    apply length_mapM in Himgs. destruct imgs as [|i imgs]; [done|].
    unfold setattr, mbind, M_bind. cbn [session_state page calls mret M_ret].
    change ([VStr prompt] ++ map VImage (i :: imgs))
      with (request_parts prompt None (i :: imgs)).
    unfold generate_content. cbn [session_state page calls].
    set (req := request_parts _ _ _).
    destruct (client req) as [e|resp]; cbn -[req].
    { split; [done|]. session_lookups. }
    unfold lift. destruct (decode_response resp) as [e|[txt [img|]]]; cbn -[req].
    + split; [done|]. session_lookups.
    + unfold append, getattr, mbind, M_bind, setattr. cbn -[req]. simplify_map_eq.
      cbn -[req]. split; [done|]. rewrite app_nil_r. session_lookups.
    + split; [done|]. rewrite app_nil_r. session_lookups.
Qed.

(** ** Decoding the reply's parts *)

Lemma append_assoc (a b c : string) : (a +:+ b) +:+ c = a +:+ (b +:+ c).
Proof.
  induction a as [|ch a IH]; [done|].
  change (String ch ((a +:+ b) +:+ c) = String ch (a +:+ (b +:+ c))).
  by rewrite IH.
Qed.

Lemma append_empty_r (a : string) : a +:+ "" = a.
Proof.
  induction a as [|ch a IH]; [done|].
  change (String ch (a +:+ "") = String ch a). by rewrite IH.
Qed.

Lemma last_or_cons (before : option Image) (img : Image) (imgs : list Image) :
  last_or (Some img) imgs = last_or before (img :: imgs).
Proof.
  unfold last_or. destruct imgs as [|i imgs]; [done|]. rewrite last_cons_cons.
  destruct (last (i :: imgs)) eqn:H; [done|]. by apply last_None in H.
Qed.

(** The loop from any accumulator values: it fails exactly when some image
    part does not decode, and otherwise appends the text parts and keeps the
    last decoded image. *)
Lemma part_loop_spec (ps : list Part) (t0 : string) (i0 : option Image) :
  part_loop ps t0 i0 =
    match mapM Image_open (image_parts ps) with
    | Some imgs => inr (t0 +:+ spec_text ps, last_or i0 imgs)
    | None => inl UnidentifiedImageError
    end.
Proof.
  revert t0 i0. induction ps as [|[t d] ps IH]; intros t0 i0.
  - cbn. by rewrite append_empty_r.
  - cbn [part_loop text inline_data]. destruct t as [t|]; [|destruct d as [d|]].
    + rewrite IH.
      change (image_parts ({| text := Some t; inline_data := d |} :: ps))
        with (image_parts ps).
      change (spec_text ({| text := Some t; inline_data := d |} :: ps))
        with (t +:+ newline +:+ spec_text ps).
      destruct (mapM Image_open (image_parts ps)); [|done].
      by rewrite !append_assoc.
    + change (image_parts ({| text := None; inline_data := Some d |} :: ps))
        with (d :: image_parts ps).
      change (spec_text ({| text := None; inline_data := Some d |} :: ps))
        with (spec_text ps).
      cbn [mapM]. destruct (Image_open d) as [img|]; [|done].
      rewrite IH. cbn.
      destruct (mapM Image_open (image_parts ps)) as [imgs|]; [|done]. cbn.
      by rewrite (last_or_cons i0).
    + rewrite IH. done.
Qed.

Lemma mapM_last (l : list bytes) (imgs : list Image) :
  mapM Image_open l = Some imgs → last imgs = last l ≫= Image_open.
Proof.
  intros H%mapM_Some. induction H as [|x y l k Hxy H IH]; [done|].
  destruct H as [|x' y' l k Hxy' H]; [done|].
  rewrite !last_cons_cons. exact IH.
Qed.

Lemma part_loop_start (ps : list Part) :
  part_loop ps "" None =
    match mapM Image_open (image_parts ps) with
    | Some imgs => inr (spec_text ps, last imgs)
    | None => inl UnidentifiedImageError
    end.
Proof.
  rewrite part_loop_spec. destruct (mapM _ _) as [imgs|]; [|done].
  unfold last_or. change ("" +:+ spec_text ps) with (spec_text ps).
  by destruct (last imgs).
Qed.

(** C6: for every list of reply parts, the decoded text is the concatenation
    of the text parts, each followed by a newline, and the decoded image is
    the last image part, absent when there is none; a reply without an image
    part is decoded without error.  The loop is total: it returns this
    result whenever every image part is a payload the codec recognises. *)
Theorem decode_parts_text_and_last_image (ps : list Part) :
  (∀ r, part_loop ps "" None = inr r → r = (spec_text ps, spec_image ps)) ∧
  (Forall (λ d, is_Some (Image_open d)) (image_parts ps) →
     part_loop ps "" None = inr (spec_text ps, spec_image ps)) ∧
  (image_parts ps = [] → part_loop ps "" None = inr (spec_text ps, None)).
Proof.
  rewrite part_loop_start. unfold spec_image. split; [|split].
  - intros r. destruct (mapM Image_open (image_parts ps)) as [imgs|] eqn:H; [|done].
    intros [= <-]. by rewrite <-(mapM_last _ _ H).
  - intros Hall. destruct (mapM Image_open (image_parts ps)) as [imgs|] eqn:H.
    + by rewrite <-(mapM_last _ _ H).
    + apply mapM_None in H. apply Exists_exists in H as (d & Hd & Hnone).
      rewrite Forall_forall in Hall. destruct (Hall d Hd) as [i Hi]. congruence.
  - intros ->. done.
Qed.

(** The parts of a reply carry one kind of data each; then the image parts
    are simply the parts with inline data. *)
Lemma image_parts_oneof (ps : list Part) :
  Forall (λ p, text p = None ∨ inline_data p = None) ps →
  image_parts ps = omap inline_data ps.
Proof.
  induction 1 as [|[t d] ps [Hp|Hp] _ IH]; [done|..]; cbn in *; subst.
  - unfold image_parts in *. cbn. by rewrite IH.
  - unfold image_parts in *. cbn. destruct t; by rewrite IH.
Qed.

(** ** Validation of the prompt *)

(** C7: a round submitted with an empty prompt shows a warning and does
    nothing else: the session state and the call log are those found, in the
    initial form and in the refinement form alike. *)
Theorem empty_prompt_rejected (client : Client) (ups : list bytes) (w : World) :
  generate_initial_handler client "" ups w =
    ({| session_state := session_state w;
        page := page w ++ [st_warning [Lit "Please enter an initial prompt."]];
        calls := calls w |}, inr tt) ∧
  generate_next_version_handler client "" ups w =
    ({| session_state := session_state w;
        page := page w ++ [st_warning [Lit "Please enter a prompt for the next version."]];
        calls := calls w |}, inr tt).
Proof. split; reflexivity. Qed.

(** ** Initialisation *)

Lemma init_key_union (key : string) (default : Value) (w : World) :
  init_key key default w =
    ({| session_state := session_state w ∪ {[key := default]};
        page := page w; calls := calls w |}, inr tt).
Proof.
  unfold init_key, contains, mbind, M_bind, setattr.
  destruct (session_state w !! key) as [v|] eqn:Hk.
  - rewrite bool_decide_eq_true_2 by eauto. cbn.
    replace (session_state w ∪ {[key := default]}) with (session_state w);
      [by destruct w|].
    apply map_eq. intros j. rewrite lookup_union.
    destruct (decide (key = j)) as [<-|Hne].
    + by rewrite Hk, lookup_singleton_eq.
    + rewrite lookup_singleton_ne by done. by destruct (session_state w !! j).
  - rewrite bool_decide_eq_false_2 by (intros [? ?]; congruence). cbn.
    by rewrite insert_union_singleton_r.
Qed.

Lemma initialize_union (w : World) :
  initialize w =
    ({| session_state := session_state w ∪ state_of empty_session;
        page := page w; calls := calls w |}, inr tt).
Proof.
  unfold initialize, mbind, M_bind.
  repeat (rewrite init_key_union; cbn [session_state page calls]).
  rewrite <-!(assoc_L (∪)). reflexivity.
Qed.

Lemma session_of_union (ss : gmap string Value) (s : Session) :
  session_of ss = Some s → ss ∪ state_of empty_session = ss.
Proof.
  intros (Hc & Hl & Hd & Hh)%session_of_lookups.
  apply map_eq. intros j. rewrite lookup_union. unfold state_of.
  rewrite !lookup_insert, lookup_empty. repeat case_decide; subst;
    try (by destruct (ss !! j)); by rewrite ?Hc, ?Hl, ?Hd, ?Hh.
Qed.

(** C8: initialisation adds to the session state the attributes it lacks, each
    with its empty value, and touches nothing it finds: every attribute
    already there keeps its value, a state that holds a Session is returned
    as it is, a second initialisation changes nothing, and a fresh connection
    gets the empty Session. *)
Theorem initialize_idempotent (w : World) :
  initialize w =
    ({| session_state := session_state w ∪ state_of empty_session;
        page := page w; calls := calls w |}, inr tt) ∧
  (∀ key v, session_state w !! key = Some v →
     session_state (initialize w).1 !! key = Some v) ∧
  (∀ s, session_of (session_state w) = Some s → (initialize w).1 = w) ∧
  initialize (initialize w).1 = initialize w ∧
  session_of (session_state (initialize fresh).1) = Some empty_session.
Proof.
  rewrite !initialize_union. cbn [fst session_state page calls].
  split; [done|]. split; [|split; [|split]].
  - intros key v Hk. by apply lookup_union_Some_l.
  - intros s Hs. rewrite (session_of_union _ _ Hs). by destruct w.
  - do 2 f_equal. rewrite <-(assoc_L (∪)). by rewrite (idemp_L (∪)).
  - by vm_compute.
Qed.

(** ** The credential *)

(** C9: the key is the environment variable's value when that is set and not
    empty, and the secrets store is then not consulted; otherwise it is what
    the secrets store holds.  When neither yields a key the script halts
    before any widget is drawn, with the session state and the call log as it
    found them: on the error it shows, when the store holds no key, and on
    the store's own exception, when there is no secrets file. *)
Theorem credential_resolution (env : Env) (wd : Widgets) (w : World) :
  (∀ k, environ env !! "GEMINI_KEY" = Some k → k ≠ "" →
     GEMINI_KEY env = inr (VStr k)) ∧
  (environ env !! "GEMINI_KEY" = None ∨ environ env !! "GEMINI_KEY" = Some "" →
     GEMINI_KEY env = secrets_get (secrets env) "GEMINI_KEY") ∧
  (environ env !! "GEMINI_KEY" = None ∨ environ env !! "GEMINI_KEY" = Some "" →
   ∀ store, secrets env = Some store →
   store !! "GEMINI_KEY" = None ∨ store !! "GEMINI_KEY" = Some "" →
     main env wd w =
       ({| session_state := session_state w;
           page := page w ++ [st_error [Lit key_not_found]];
           calls := calls w |}, inl StopException)) ∧
  (environ env !! "GEMINI_KEY" = None ∨ environ env !! "GEMINI_KEY" = Some "" →
   secrets env = None →
     main env wd w = (w, inl (Exc StreamlitSecretNotFoundError))).
Proof.
  unfold main, check_key, GEMINI_KEY, secrets_get, get_str, lift, mbind, M_bind.
  split; [|split; [|split]].
  - intros k -> Hk. by rewrite truthy_prompt.
  - by intros [-> | ->].
  - by intros [-> | ->] store -> [-> | ->].
  - by intros [-> | ->] ->.
Qed.

(** ** One round *)

Lemma initial_context_fields (imgs : list Image) (s : Session) :
  currentImage (initial_context imgs s) = currentImage s ∧
  currentDescription (initial_context imgs s) = currentDescription s ∧
  history (initial_context imgs s) = history s.
Proof. by destruct imgs. Qed.

(** C5: the contents sent to the model are the prompt, then the seed image if
    there is one, then the uploaded images in upload order.  The initial
    round has no seed; the follow-up round's seed is the current image.  A
    round with a prompt and readable uploads makes exactly this one call. *)
Theorem request_parts_sent (client : Client) (prompt : string)
    (ups : list bytes) (imgs : list Image) (w : World) (s : Session) :
  session_of (session_state w) = Some s →
  prompt ≠ "" →
  mapM Image_open ups = Some imgs →
  calls (generate_initial_handler client prompt ups w).1 =
    calls w ++ [(request_parts prompt None imgs,
                 client (request_parts prompt None imgs))] ∧
  calls (generate_next_version_handler client prompt ups w).1 =
    calls w ++ [(request_parts prompt (currentImage s) imgs,
                 client (request_parts prompt (currentImage s) imgs))].
Proof.
  intros Hs Hp Himgs.
  pose proof (generate_initial_handler_session client prompt ups w s Hs Hp) as Hi.
  pose proof (generate_next_version_handler_session client prompt ups w s Hs Hp) as Hn.
  cbv zeta in Hi, Hn. rewrite Himgs in Hi, Hn. split; [apply Hi | apply Hn].
Qed.

(** C3: a round whose result has no image leaves the current image and the
    list of generated images as they were and stores the round's text as the
    current description. *)
Theorem text_only_round (client : Client) (prompt : string) (ups : list bytes)
    (imgs : list Image) (w : World) (s : Session) (txt : string) :
  session_of (session_state w) = Some s →
  prompt ≠ "" →
  mapM Image_open ups = Some imgs →
  (∀ response,
     client (request_parts prompt None imgs) = inr response →
     decode_response response = inr (txt, None) →
     session_of (session_state (generate_initial_handler client prompt ups w).1)
       = Some {| contextImages := contextImages (initial_context imgs s);
                 currentImage := currentImage s;
                 currentDescription := txt;
                 history := history s |}) ∧
  (∀ response,
     client (request_parts prompt (currentImage s) imgs) = inr response →
     decode_response response = inr (txt, None) →
     session_of (session_state (generate_next_version_handler client prompt ups w).1)
       = Some {| contextImages := contextImages s ++ imgs;
                 currentImage := currentImage s;
                 currentDescription := txt;
                 history := history s |}).
Proof.
  intros Hs Hp Himgs.
  pose proof (generate_initial_handler_session client prompt ups w s Hs Hp) as Hi.
  pose proof (generate_next_version_handler_session client prompt ups w s Hs Hp) as Hn.
  cbv zeta in Hi, Hn. rewrite Himgs in Hi, Hn.
  split; intros response Hc Hd.
  - destruct Hi as [_ ->]. rewrite Hc, Hd. unfold recordRound. cbn.
    destruct (initial_context_fields imgs s) as (-> & _ & ->).
    by rewrite app_nil_r.
  - destruct Hn as [_ ->]. by rewrite Hc, Hd.
Qed.

(** C1, as the code has it: when the call to the model raises, the current
    image, the current description and the generated images are those found
    before the round.  The context images have by then received the round's
    uploads (they replace the stored ones in an initial round and are appended
    to them in a follow-up round); a round without uploads leaves the whole
    Session as it was. *)
Theorem failed_call_keeps_generated (client : Client) (prompt : string)
    (ups : list bytes) (imgs : list Image) (w : World) (s : Session) :
  session_of (session_state w) = Some s →
  prompt ≠ "" →
  mapM Image_open ups = Some imgs →
  (∀ e, client (request_parts prompt None imgs) = inl e →
     session_of (session_state (generate_initial_handler client prompt ups w).1)
       = Some {| contextImages := contextImages (initial_context imgs s);
                 currentImage := currentImage s;
                 currentDescription := currentDescription s;
                 history := history s |} ∧
     (ups = [] →
      session_of (session_state (generate_initial_handler client prompt ups w).1)
        = Some s)) ∧
  (∀ e, client (request_parts prompt (currentImage s) imgs) = inl e →
     session_of (session_state (generate_next_version_handler client prompt ups w).1)
       = Some {| contextImages := contextImages s ++ imgs;
                 currentImage := currentImage s;
                 currentDescription := currentDescription s;
                 history := history s |} ∧
     (ups = [] →
      session_of (session_state (generate_next_version_handler client prompt ups w).1)
        = Some s)).
Proof.
  intros Hs Hp Himgs.
  pose proof (generate_initial_handler_session client prompt ups w s Hs Hp) as Hi.
  pose proof (generate_next_version_handler_session client prompt ups w s Hs Hp) as Hn.
  cbv zeta in Hi, Hn. rewrite Himgs in Hi, Hn.
  split; intros e He.
  - destruct Hi as [_ ->]. rewrite He. split.
    + by destruct imgs, s.
    + intros ->. by injection Himgs as <-.
  - destruct Hn as [_ ->]. rewrite He. split; [done|].
    intros ->. injection Himgs as <-. unfold with_context.
    rewrite app_nil_r. by destruct s.
Qed.

Lemma round_images_single (req : list Value)
    (r : Exception + GenerateContentResponse) :
  round_images [(req, r)] =
    match r with
    | inl _ => []
    | inr response =>
        match decode_response response with
        | inr (_, Some img) => [img]
        | _ => []
        end
    end.
Proof.
  unfold round_images, result_image. cbn.
  destruct r as [e|response]; [done|].
  by destruct (decode_response response) as [e|[txt [img|]]].
Qed.

(** Any initial round, whatever its outcome. *)
Lemma generate_initial_handler_round (client : Client) (prompt : string)
    (ups : list bytes) (w : World) (s : Session) :
  session_of (session_state w) = Some s →
  let w' := (generate_initial_handler client prompt ups w).1 in
  ∃ s' new,
    session_of (session_state w') = Some s' ∧
    calls w' = calls w ++ new ∧ length new ≤ 1 ∧
    history s' = history s ++ round_images new ∧
    (contextImages s' = contextImages s ∨
     ∃ imgs, imgs ≠ [] ∧ mapM Image_open ups = Some imgs ∧ contextImages s' = imgs).
Proof.
  intros Hs. cbv zeta. destruct (decide (prompt = "")) as [->|Hp].
  { exists s, []. cbn. rewrite !app_nil_r. eauto 10. }
  pose proof (generate_initial_handler_session client prompt ups w s Hs Hp) as Hi.
  cbv zeta in Hi. destruct (mapM Image_open ups) as [imgs|] eqn:Himgs.
  - destruct Hi as [Hcalls Hsess]. eexists _, [_]. split; [exact Hsess|].
    split; [exact Hcalls|]. split; [done|]. rewrite round_images_single.
    destruct (initial_context_fields imgs s) as (_ & _ & Hh).
    assert (Hctx : contextImages (initial_context imgs s) = contextImages s ∨
      ∃ imgs', imgs' ≠ [] ∧ Some imgs = Some imgs' ∧
               contextImages (initial_context imgs s) = imgs').
    { destruct imgs as [|i imgs]; [by left|]. right. by exists (i :: imgs). }
    destruct (client _) as [e|response].
    { rewrite app_nil_r. by split. }
    destruct (decode_response response) as [e|[txt [img|]]]; cbn;
      rewrite ?app_nil_r, ?Hh; by split.
  - destruct Hi as [Hss Hcalls]. exists s, []. rewrite Hss, Hcalls.
    cbn. rewrite !app_nil_r. eauto 10.
Qed.

(** Any follow-up round, whatever its outcome. *)
Lemma generate_next_version_handler_round (client : Client) (prompt : string)
    (ups : list bytes) (w : World) (s : Session) :
  session_of (session_state w) = Some s →
  let w' := (generate_next_version_handler client prompt ups w).1 in
  ∃ s' new,
    session_of (session_state w') = Some s' ∧
    calls w' = calls w ++ new ∧ length new ≤ 1 ∧
    history s' = history s ++ round_images new ∧
    (contextImages s' = contextImages s ∨
     ∃ imgs, mapM Image_open ups = Some imgs ∧
             contextImages s' = contextImages s ++ imgs).
Proof.
  intros Hs. cbv zeta. destruct (decide (prompt = "")) as [->|Hp].
  { exists s, []. cbn. rewrite !app_nil_r. eauto 10. }
  pose proof (generate_next_version_handler_session client prompt ups w s Hs Hp) as Hn.
  cbv zeta in Hn. destruct (mapM Image_open ups) as [imgs|] eqn:Himgs.
  - destruct Hn as [Hcalls Hsess]. eexists _, [_]. split; [exact Hsess|].
    split; [exact Hcalls|]. split; [done|]. rewrite round_images_single.
    destruct (client _) as [e|response].
    { rewrite app_nil_r. cbn. eauto. }
    destruct (decode_response response) as [e|[txt [img|]]]; cbn;
      rewrite ?app_nil_r; eauto.
  - destruct Hn as [Hss Hcalls]. exists s, []. rewrite Hss, Hcalls.
    cbn. rewrite !app_nil_r. eauto 10.
Qed.

Lemma round_images_length (new : list Call) :
  length (round_images new) ≤ length new.
Proof.
  induction new as [|c new IH]; [done|]. unfold round_images in *. cbn.
  destruct (result_image c); cbn; lia.
Qed.

(** C10: a round adds at most one image to the generated images: a
    successful round adds the image of its result, once, when the result has
    one, and nothing when it has none; any other round adds nothing or one
    image.  The result has room for a single image, the last of the reply. *)
Theorem history_grows_by_at_most_one (client : Client) (prompt : string)
    (ups : list bytes) (w : World) (s : Session) :
  session_of (session_state w) = Some s →
  (∃ s' grown,
     session_of (session_state (generate_initial_handler client prompt ups w).1)
       = Some s' ∧
     history s' = history s ++ grown ∧ length grown ≤ 1) ∧
  (∃ s' grown,
     session_of (session_state (generate_next_version_handler client prompt ups w).1)
       = Some s' ∧
     history s' = history s ++ grown ∧ length grown ≤ 1) ∧
  (∀ imgs response txt oimg,
     prompt ≠ "" → mapM Image_open ups = Some imgs →
     client (request_parts prompt None imgs) = inr response →
     decode_response response = inr (txt, oimg) →
     ∃ s',
       session_of (session_state (generate_initial_handler client prompt ups w).1)
         = Some s' ∧
       history s' = history s ++ option_list oimg ∧
       length (history s') = length (history s) + length (option_list oimg)) ∧
  (∀ imgs response txt oimg,
     prompt ≠ "" → mapM Image_open ups = Some imgs →
     client (request_parts prompt (currentImage s) imgs) = inr response →
     decode_response response = inr (txt, oimg) →
     ∃ s',
       session_of (session_state (generate_next_version_handler client prompt ups w).1)
         = Some s' ∧
       history s' = history s ++ option_list oimg ∧
       length (history s') = length (history s) + length (option_list oimg)).
Proof.
  intros Hs. split; [|split; [|split]].
  - destruct (generate_initial_handler_round client prompt ups w s Hs)
      as (s' & new & Hs' & _ & Hlen & Hh & _).
    exists s', (round_images new). split; [done|]. split; [done|].
    pose proof (round_images_length new). lia.
  - destruct (generate_next_version_handler_round client prompt ups w s Hs)
      as (s' & new & Hs' & _ & Hlen & Hh & _).
    exists s', (round_images new). split; [done|]. split; [done|].
    pose proof (round_images_length new). lia.
  - intros imgs response txt oimg Hp Himgs Hc Hd.
    pose proof (generate_initial_handler_session client prompt ups w s Hs Hp) as Hi.
    cbv zeta in Hi. rewrite Himgs, Hc, Hd in Hi. destruct Hi as [_ Hi].
    eexists. split; [exact Hi|].
    destruct (initial_context_fields imgs s) as (_ & _ & Hh).
    destruct oimg as [img|]; cbn; rewrite Hh, ?length_app, ?app_nil_r; cbn;
      split; (done || lia).
  - intros imgs response txt oimg Hp Himgs Hc Hd.
    pose proof (generate_next_version_handler_session client prompt ups w s Hs Hp) as Hn.
    cbv zeta in Hn. rewrite Himgs, Hc, Hd in Hn. destruct Hn as [_ Hn].
    eexists. split; [exact Hn|].
    destruct oimg as [img|]; cbn; rewrite ?length_app, ?app_nil_r; cbn;
      split; (done || lia).
Qed.

(** C2, as the code has it: a follow-up round with a prompt and readable
    uploads appends exactly its uploads to the context images, and
    initialisation leaves them alone.  An initial round with a prompt and
    readable uploads keeps the context images it finds when nothing is
    uploaded, and otherwise stores the round's uploads in their place.  A
    round without a prompt, or with an upload the codec rejects, leaves the
    session state as it found it. *)
Theorem context_images_appended_or_replaced (client : Client) (prompt : string)
    (ups : list bytes) (w : World) (s : Session) :
  session_of (session_state w) = Some s →
  (∀ imgs, prompt ≠ "" → mapM Image_open ups = Some imgs →
     ∃ s',
       session_of (session_state (generate_next_version_handler client prompt ups w).1)
         = Some s' ∧
       contextImages s' = contextImages s ++ imgs) ∧
  (∀ imgs, prompt ≠ "" → mapM Image_open ups = Some imgs →
     ∃ s',
       session_of (session_state (generate_initial_handler client prompt ups w).1)
         = Some s' ∧
       contextImages s' = match imgs with
                          | [] => contextImages s
                          | _ :: _ => imgs
                          end) ∧
  (prompt = "" ∨ mapM Image_open ups = None →
     session_state (generate_next_version_handler client prompt ups w).1
       = session_state w ∧
     session_state (generate_initial_handler client prompt ups w).1
       = session_state w) ∧
  session_of (session_state (initialize w).1) = Some s.
Proof.
  intros Hs. split; [|split; [|split]].
  - intros imgs Hp Himgs.
    pose proof (generate_next_version_handler_session client prompt ups w s Hs Hp) as Hn.
    cbv zeta in Hn. rewrite Himgs in Hn. destruct Hn as [_ Hn].
    eexists. split; [exact Hn|].
    destruct (client _) as [e|response]; [done|].
    by destruct (decode_response response) as [e|[txt [img|]]].
  - intros imgs Hp Himgs.
    pose proof (generate_initial_handler_session client prompt ups w s Hs Hp) as Hi.
    cbv zeta in Hi. rewrite Himgs in Hi. destruct Hi as [_ Hi].
    eexists. split; [exact Hi|].
    assert (Hctx : contextImages (initial_context imgs s)
                   = match imgs with [] => contextImages s | _ :: _ => imgs end)
      by by destruct imgs.
    destruct (client _) as [e|response]; [done|].
    destruct (decode_response response) as [e|[txt [img|]]]; cbn;
      by rewrite ?app_nil_r.
  - intros Hrej. destruct (decide (prompt = "")) as [->|Hp]; [done|].
    destruct Hrej as [?|Hups]; [done|].
    pose proof (generate_next_version_handler_session client prompt ups w s Hs Hp) as Hn.
    pose proof (generate_initial_handler_session client prompt ups w s Hs Hp) as Hi.
    cbv zeta in Hn, Hi. rewrite Hups in Hn, Hi. by destruct Hn, Hi.
  - rewrite initialize_union. cbn. by rewrite (session_of_union _ _ Hs).
Qed.

(** ** One execution of the script, and a session of them *)

Lemma round_images_app (cs1 cs2 : list Call) :
  round_images (cs1 ++ cs2) = round_images cs1 ++ round_images cs2.
Proof. apply omap_app. Qed.

Lemma extends_refl (w : World) : extends w w.
Proof. intros s Hs. exists s, []. cbn. by rewrite !app_nil_r. Qed.

Lemma extends_trans (w1 w2 w3 : World) :
  extends w1 w2 → extends w2 w3 → extends w1 w3.
Proof.
  intros H12 H23 s Hs.
  destruct (H12 s Hs) as (s2 & new2 & Hs2 & Hc2 & Hh2).
  destruct (H23 s2 Hs2) as (s3 & new3 & Hs3 & Hc3 & Hh3).
  exists s3, (new2 ++ new3). split; [done|].
  rewrite Hc3, Hc2, Hh3, Hh2, round_images_app, !(assoc_L (++)). done.
Qed.

Lemma sound_ret {A} (a : A) : sound (mret a).
Proof. intros w. apply extends_refl. Qed.

Lemma sound_raise {A} (e : BaseException) : sound (raise (A := A) e).
Proof. intros w. apply extends_refl. Qed.

Lemma sound_emit (ev : UiEvent) : sound (emit ev).
Proof. intros w s Hs. exists s, []. cbn. by rewrite !app_nil_r. Qed.

Lemma sound_getattr (key : string) : sound (getattr key).
Proof.
  intros w. unfold getattr. destruct (session_state w !! key); apply extends_refl.
Qed.

Lemma sound_bind {A B} (m : M A) (f : A → M B) :
  sound m → (∀ a, sound (f a)) → sound (m ≫= f).
Proof.
  intros Hm Hf w. unfold mbind, M_bind. specialize (Hm w).
  destruct (m w) as [w1 [e|a]]; [exact Hm|].
  eapply extends_trans; [exact Hm|]. apply Hf.
Qed.

Lemma sound_generate_initial_handler (client : Client) (prompt : string)
    (ups : list bytes) : sound (generate_initial_handler client prompt ups).
Proof.
  intros w s Hs.
  destruct (generate_initial_handler_round client prompt ups w s Hs)
    as (s' & new & Hs' & Hc & _ & Hh & _). eauto.
Qed.

Lemma sound_generate_next_version_handler (client : Client) (prompt : string)
    (ups : list bytes) : sound (generate_next_version_handler client prompt ups).
Proof.
  intros w s Hs.
  destruct (generate_next_version_handler_round client prompt ups w s Hs)
    as (s' & new & Hs' & Hc & _ & Hh & _). eauto.
Qed.

Lemma sound_show_image (v : Value) (caption : list Fmt) :
  sound (show_image v caption).
Proof.
  unfold show_image. destruct (st_image_raises v);
    [apply sound_raise | apply sound_emit].
Qed.

Lemma sound_gallery (imgs : list Image) (i : nat) : sound (gallery imgs i).
Proof.
  revert i. induction imgs as [|img imgs IH]; intros i; cbn [gallery].
  - apply sound_ret.
  - apply sound_bind; [apply sound_show_image | intros _; apply IH].
Qed.

Ltac sound_step :=
  first
    [ apply sound_bind; [|intros ?]
    | apply sound_emit
    | apply sound_show_image
    | apply sound_ret
    | apply sound_raise
    | apply sound_getattr
    | apply sound_generate_initial_handler
    | apply sound_generate_next_version_handler
    | apply sound_gallery
    | match goal with
      | |- sound (if ?b then _ else _) => destruct b
      | |- sound (match ?v with _ => _ end) => destruct v
      end ].

Lemma sound_initial_section (client : Client) (wd : Widgets) :
  sound (initial_section client wd).
Proof. unfold initial_section. repeat sound_step. Qed.

Lemma sound_refine_section (client : Client) (wd : Widgets) :
  sound (refine_section client wd).
Proof. unfold refine_section. repeat sound_step. Qed.

Lemma sound_gallery_section : sound gallery_section.
Proof. unfold gallery_section. repeat sound_step. Qed.

Lemma wf_history (ss : gmap string Value) (s : Session) :
  session_of (ss ∪ state_of empty_session) = Some s → history_of ss = history s.
Proof.
  intros (_ & _ & _ & Hh)%session_of_lookups. unfold history_of.
  rewrite lookup_union in Hh.
  change (state_of empty_session !! "generated_images")
    with (Some (VList (@nil Image))) in Hh.
  destruct (ss !! "generated_images") as [v|]; cbn in Hh.
  - by injection Hh as ->.
  - by injection Hh as <-.
Qed.

Lemma session_of_history (ss : gmap string Value) (s : Session) :
  session_of ss = Some s → history_of ss = history s.
Proof.
  intros (_ & _ & _ & Hh)%session_of_lookups. unfold history_of. by rewrite Hh.
Qed.

Lemma advances_refl (w : World) : advances w w.
Proof. exists []. cbn. by rewrite !app_nil_r. Qed.

Lemma advances_trans (w1 w2 w3 : World) :
  advances w1 w2 → advances w2 w3 → advances w1 w3.
Proof.
  intros (new2 & Hc2 & Hh2) (new3 & Hc3 & Hh3). exists (new2 ++ new3).
  rewrite Hc3, Hc2, Hh3, Hh2, round_images_app, !(assoc_L (++)). done.
Qed.

(** One execution keeps the state well formed and only adds to the generated
    images the images of the calls it makes. *)
Lemma bind_lift_inl {A B} (e : Exception) (f : A → M B) (w : World) :
  (lift (inl e) ≫= f) w = (w, inl (Exc e)).
Proof. reflexivity. Qed.

Lemma bind_lift_inr {A B} (a : A) (f : A → M B) (w : World) :
  (lift (inr a) ≫= f) w = f a w.
Proof. reflexivity. Qed.

Lemma main_step (env : Env) (wd : Widgets) (w : World) :
  wf (session_state w) →
  wf (session_state (main env wd w).1) ∧ advances w (main env wd w).1.
Proof.
  intros Hwf. unfold main.
  destruct (GEMINI_KEY env) as [e|key];
    [rewrite bind_lift_inl; by split; [|apply advances_refl]|].
  rewrite bind_lift_inr. unfold check_key.
  destruct (truthy key); cbn [negb].
  2: { cbn. split; [done|]. exists []. cbn. by rewrite !app_nil_r. }
  set (rest := initial_section _ wd ≫= _).
  assert (Hrest : sound rest).
  { unfold rest. apply sound_bind; [apply sound_initial_section|]. intros _.
    apply sound_bind; [apply sound_refine_section|]. intros _.
    apply sound_gallery_section. }
  unfold mbind, M_bind. cbn [mret M_ret emit session_state page calls].
  rewrite initialize_union. cbn [session_state page calls].
  set (w1 := {| session_state := session_state w ∪ state_of empty_session |}).
  destruct Hwf as [s0 Hs0].
  destruct (Hrest w1 s0 Hs0) as (s' & new & Hs' & Hc & Hh).
  split.
  - exists s'. by rewrite (session_of_union _ _ Hs').
  - exists new. split; [exact Hc|].
    by rewrite (session_of_history _ _ Hs'), (wf_history _ _ Hs0).
Qed.

Lemma run_session_step (runs : list (Env * Widgets)) (w : World) :
  wf (session_state w) →
  wf (session_state (run_session runs w)) ∧ advances w (run_session runs w).
Proof.
  revert w. induction runs as [|[env wd] runs IH]; intros w Hwf; cbn [run_session].
  - split; [done | apply advances_refl].
  - set (w0 := {| session_state := session_state w; page := []; calls := calls w |}).
    destruct (main_step env wd w0 Hwf) as [Hwf1 Hadv1].
    destruct (IH _ Hwf1) as [Hwf2 Hadv2]. split; [done|].
    eapply advances_trans; [|exact Hadv2]. exact Hadv1.
Qed.

Lemma run_session_app (runs more : list (Env * Widgets)) (w : World) :
  run_session (runs ++ more) w = run_session more (run_session runs w).
Proof.
  revert w. induction runs as [|[env wd] runs IH]; intros w; [done|].
  cbn [run_session app]. apply IH.
Qed.

Lemma wf_fresh : wf (session_state fresh).
Proof. exists empty_session. by vm_compute. Qed.

(** C4: over any session, from a fresh connection on, the generated images on
    record are the images of the rounds whose result included one, in order;
    their number is the number of those rounds, and it never decreases as the
    session goes on. *)
Theorem history_counts_image_rounds (runs : list (Env * Widgets)) :
  history_of (session_state (run_session runs fresh))
    = round_images (calls (run_session runs fresh)) ∧
  length (history_of (session_state (run_session runs fresh)))
    = length (filter (λ c, is_Some (result_image c))
                (calls (run_session runs fresh))) ∧
  ∀ more,
    history_of (session_state (run_session runs fresh))
      `prefix_of` history_of (session_state (run_session (runs ++ more) fresh)) ∧
    length (history_of (session_state (run_session runs fresh)))
      ≤ length (history_of (session_state (run_session (runs ++ more) fresh))).
Proof.
  destruct (run_session_step runs fresh wf_fresh) as [Hwf (new & Hc & Hh)].
  cbn in Hc, Hh. assert (Heq : history_of (session_state (run_session runs fresh))
    = round_images (calls (run_session runs fresh))) by by rewrite Hc, Hh.
  split; [exact Heq|]. split.
  - rewrite Heq. generalize (calls (run_session runs fresh)). intros cs.
    induction cs as [|c cs IH]; [done|].
    change (round_images (c :: cs))
      with (match result_image c with
            | Some img => img :: round_images cs
            | None => round_images cs
            end).
    rewrite filter_cons. destruct (result_image c) as [img|] eqn:Hr.
    + rewrite decide_True by eauto. cbn [length]. by rewrite IH.
    + rewrite decide_False by (by intros [? ?]). exact IH.
  - intros more. rewrite run_session_app.
    destruct (run_session_step more _ Hwf) as [_ (new' & _ & Hh')].
    rewrite Hh'. split; [by eexists|]. rewrite length_app. lia.
Qed.

(** ** What a round shows and how it ends *)

Lemma generate_initial_handler_run (client : Client) (prompt : string)
    (ups : list bytes) (imgs : list Image) (w : World) (s : Session) :
  session_of (session_state w) = Some s →
  prompt ≠ "" →
  mapM Image_open ups = Some imgs →
  ∃ ss',
    generate_initial_handler client prompt ups w =
      ({| session_state := ss';
          page := page w ++
            [st_info [Lit "Generating initial image... This may take a moment."];
             initial_feedback (round_result client (request_parts prompt None imgs))];
          calls := calls w ++
            [(request_parts prompt None imgs,
              client (request_parts prompt None imgs))] |}, inr tt).
Proof.
  intros Hs Hp Himgs. apply session_of_lookups in Hs as (Hc & Hl & Hd & Hh).
  unfold generate_initial_handler. rewrite (truthy_prompt _ Hp). cbn [negb].
  unfold try_except, mbind, M_bind, emit, round_result.
  cbn [session_state page calls].
  destruct ups as [|f ups].
  - injection Himgs as <-. cbn [length Nat.eqb negb mret M_ret].
    change [VStr prompt] with (request_parts prompt None []).
    unfold generate_content. cbn [session_state page calls].
    set (req := request_parts _ _ _).
    destruct (client req) as [e|resp]; cbn -[req].
    { rewrite <-(assoc_L (++)). by eexists. }
    unfold lift. destruct (decode_response resp) as [e|[txt [img|]]]; cbn -[req].
    + rewrite <-(assoc_L (++)). by eexists.
    + unfold append, getattr, mbind, M_bind, setattr. cbn -[req]. simplify_map_eq.
      cbn -[req]. rewrite <-(assoc_L (++)). by eexists.
    + rewrite <-(assoc_L (++)). by eexists.
  - cbn [length Nat.eqb negb]. rewrite open_all_mapM, Himgs.
    unfold setattr, mbind, M_bind. cbn [session_state page calls mret M_ret].
    change ([VStr prompt] ++ map VImage imgs) with (request_parts prompt None imgs).
    unfold generate_content. cbn [session_state page calls].
    set (req := request_parts _ _ _).
    destruct (client req) as [e|resp]; cbn -[req].
    { rewrite <-(assoc_L (++)). by eexists. }
    unfold lift. destruct (decode_response resp) as [e|[txt [img|]]]; cbn -[req].
    + rewrite <-(assoc_L (++)). by eexists.
    + unfold append, getattr, mbind, M_bind, setattr. cbn -[req]. simplify_map_eq.
      cbn -[req]. rewrite <-(assoc_L (++)). by eexists.
    + rewrite <-(assoc_L (++)). by eexists.
Qed.

Lemma generate_next_version_handler_run (client : Client) (prompt : string)
    (ups : list bytes) (imgs : list Image) (w : World) (s : Session) :
  session_of (session_state w) = Some s →
  prompt ≠ "" →
  mapM Image_open ups = Some imgs →
  ∃ ss',
    generate_next_version_handler client prompt ups w =
      ({| session_state := ss';
          page := page w ++
            [st_info [Lit "Generating next image version... This may take a moment."];
             followup_feedback
               (round_result client (request_parts prompt (currentImage s) imgs))];
          calls := calls w ++
            [(request_parts prompt (currentImage s) imgs,
              client (request_parts prompt (currentImage s) imgs))] |},
       followup_outcome
         (round_result client (request_parts prompt (currentImage s) imgs))).
Proof.
  intros Hs Hp Himgs. apply session_of_lookups in Hs as (Hc & Hl & Hd & Hh).
  unfold generate_next_version_handler. rewrite (truthy_prompt _ Hp). cbn [negb].
  unfold try_except, mbind, M_bind, emit, getattr, round_result.
  cbn [session_state page calls]. rewrite Hl.
  assert (Hreq : ∀ imgs, ([VStr prompt] ++
      (if truthy (from_option VImage VNone (currentImage s))
       then [from_option VImage VNone (currentImage s)] else [])) ++ map VImage imgs
      = request_parts prompt (currentImage s) imgs).
  { intros imgs'. unfold request_parts. by destruct (currentImage s). }
  destruct ups as [|f ups].
  - injection Himgs as <-. cbn [length Nat.eqb negb mret M_ret].
    specialize (Hreq []). cbn [map] in Hreq. rewrite app_nil_r in Hreq. rewrite Hreq.
    unfold generate_content. cbn [session_state page calls].
    set (req := request_parts _ _ _).
    destruct (client req) as [e|resp]; cbn -[req].
    { rewrite <-(assoc_L (++)). by eexists. }
    unfold lift. destruct (decode_response resp) as [e|[txt [img|]]]; cbn -[req].
    + rewrite <-(assoc_L (++)). by eexists.
    + unfold append, getattr, mbind, M_bind, setattr. cbn -[req]. simplify_map_eq.
      cbn -[req]. rewrite <-(assoc_L (++)). by eexists.
    + rewrite <-(assoc_L (++)). by eexists.
  - cbn [length Nat.eqb negb]. rewrite open_all_mapM, Himgs.
    unfold extend, getattr, mbind, M_bind, setattr. cbn [session_state page calls].
    rewrite Hc. cbn [mret M_ret]. rewrite Hreq.
    unfold generate_content. cbn [session_state page calls].
    set (req := request_parts _ _ _).
    destruct (client req) as [e|resp]; cbn -[req].
    { rewrite <-(assoc_L (++)). by eexists. }
    unfold lift. destruct (decode_response resp) as [e|[txt [img|]]]; cbn -[req].
    + rewrite <-(assoc_L (++)). by eexists.
    + unfold append, getattr, mbind, M_bind, setattr. cbn -[req]. simplify_map_eq.
      cbn -[req]. rewrite <-(assoc_L (++)). by eexists.
    + rewrite <-(assoc_L (++)). by eexists.
Qed.

(** X1: an initial round with a prompt and readable uploads shows the progress
    message and then exactly one closing message: the error with the
    exception when the call or the decoding raised, the success message when
    the result has an image, the warning when it has none.  The handler
    always ends normally. *)
Theorem initial_round_feedback (client : Client) (prompt : string)
    (ups : list bytes) (imgs : list Image) (w : World) (s : Session) :
  session_of (session_state w) = Some s →
  prompt ≠ "" →
  mapM Image_open ups = Some imgs →
  page (generate_initial_handler client prompt ups w).1 =
    page w ++
      [st_info [Lit "Generating initial image... This may take a moment."];
       initial_feedback (round_result client (request_parts prompt None imgs))] ∧
  (generate_initial_handler client prompt ups w).2 = inr tt.
Proof.
  intros Hs Hp Himgs.
  destruct (generate_initial_handler_run client prompt ups imgs w s Hs Hp Himgs)
    as [ss' ->]. done.
Qed.

(** X2: a follow-up round with a prompt and readable uploads shows the
    progress message and then exactly one closing message (error, success or
    warning); it ends by asking for a rerun exactly when the result has an
    image, and normally otherwise. *)
Theorem followup_round_feedback (client : Client) (prompt : string)
    (ups : list bytes) (imgs : list Image) (w : World) (s : Session) :
  session_of (session_state w) = Some s →
  prompt ≠ "" →
  mapM Image_open ups = Some imgs →
  page (generate_next_version_handler client prompt ups w).1 =
    page w ++
      [st_info [Lit "Generating next image version... This may take a moment."];
       followup_feedback
         (round_result client (request_parts prompt (currentImage s) imgs))] ∧
  (generate_next_version_handler client prompt ups w).2 =
    followup_outcome
      (round_result client (request_parts prompt (currentImage s) imgs)).
Proof.
  intros Hs Hp Himgs.
  destruct (generate_next_version_handler_run client prompt ups imgs w s Hs Hp Himgs)
    as [ss' ->]. done.
Qed.

(** X3: when one of the uploaded files is not an image the codec recognises,
    the round stops there: the error is shown, no call is made and the session
    state is the one found, in the initial form and in the refinement form. *)
Theorem unreadable_upload_rejected (client : Client) (prompt : string)
    (ups : list bytes) (w : World) (s : Session) :
  session_of (session_state w) = Some s →
  prompt ≠ "" →
  mapM Image_open ups = None →
  generate_initial_handler client prompt ups w =
    ({| session_state := session_state w;
        page := page w ++
          [st_info [Lit "Generating initial image... This may take a moment."];
           st_error [Lit "An error occurred during initial generation: ";
                     FmtExc UnidentifiedImageError]];
        calls := calls w |}, inr tt) ∧
  generate_next_version_handler client prompt ups w =
    ({| session_state := session_state w;
        page := page w ++
          [st_info [Lit "Generating next image version... This may take a moment."];
           st_error [Lit "An error occurred during follow-up generation: ";
                     FmtExc UnidentifiedImageError]];
        calls := calls w |}, inr tt).
Proof.
  intros Hs Hp Hups. apply session_of_lookups in Hs as (Hc & Hl & Hd & Hh).
  destruct ups as [|f ups]; [done|].
  unfold generate_initial_handler, generate_next_version_handler.
  rewrite (truthy_prompt _ Hp). cbn [negb length Nat.eqb].
  unfold try_except, mbind, M_bind, emit, getattr. cbn [session_state page calls].
  rewrite Hl, !open_all_mapM, Hups. cbn [session_state page calls].
  by rewrite <-!(assoc_L (++)).
Qed.

(** X4: a round whose result has an image makes it the current image, stores
    the round's text as the description and appends the image to the generated
    images; the context images are handled as in any round. *)
Theorem image_round_recorded (client : Client) (prompt : string)
    (ups : list bytes) (imgs : list Image) (w : World) (s : Session)
    (txt : string) (img : Image) :
  session_of (session_state w) = Some s →
  prompt ≠ "" →
  mapM Image_open ups = Some imgs →
  (round_result client (request_parts prompt None imgs) = inr (txt, Some img) →
     session_of (session_state (generate_initial_handler client prompt ups w).1)
       = Some {| contextImages := contextImages (initial_context imgs s);
                 currentImage := Some img;
                 currentDescription := txt;
                 history := history s ++ [img] |}) ∧
  (round_result client (request_parts prompt (currentImage s) imgs)
     = inr (txt, Some img) →
     session_of (session_state (generate_next_version_handler client prompt ups w).1)
       = Some {| contextImages := contextImages s ++ imgs;
                 currentImage := Some img;
                 currentDescription := txt;
                 history := history s ++ [img] |}).
Proof.
  intros Hs Hp Himgs.
  pose proof (generate_initial_handler_session client prompt ups w s Hs Hp) as Hi.
  pose proof (generate_next_version_handler_session client prompt ups w s Hs Hp) as Hn.
  cbv zeta in Hi, Hn. rewrite Himgs in Hi, Hn. unfold round_result.
  split; intros Hr.
  - destruct Hi as [_ ->].
    destruct (client (request_parts prompt None imgs)) as [e|response]; [done|].
    rewrite Hr. unfold recordRound. cbn.
    destruct (initial_context_fields imgs s) as (_ & _ & ->).
    by rewrite app_nil_r.
  - destruct Hn as [_ ->].
    destruct (client (request_parts prompt (currentImage s) imgs))
      as [e|response]; [done|].
    by rewrite Hr.
Qed.

(** X5: when the call returns but the reply cannot be decoded (no candidate,
    no content, no parts, or an image part the codec rejects), the round
    keeps the current image, the description and the generated images; the
    round's uploads are already among the context images. *)
Theorem undecodable_reply_keeps_generated (client : Client) (prompt : string)
    (ups : list bytes) (imgs : list Image) (w : World) (s : Session) :
  session_of (session_state w) = Some s →
  prompt ≠ "" →
  mapM Image_open ups = Some imgs →
  (∀ response e,
     client (request_parts prompt None imgs) = inr response →
     decode_response response = inl e →
     session_of (session_state (generate_initial_handler client prompt ups w).1)
       = Some {| contextImages := contextImages (initial_context imgs s);
                 currentImage := currentImage s;
                 currentDescription := currentDescription s;
                 history := history s |}) ∧
  (∀ response e,
     client (request_parts prompt (currentImage s) imgs) = inr response →
     decode_response response = inl e →
     session_of (session_state (generate_next_version_handler client prompt ups w).1)
       = Some {| contextImages := contextImages s ++ imgs;
                 currentImage := currentImage s;
                 currentDescription := currentDescription s;
                 history := history s |}).
Proof.
  intros Hs Hp Himgs.
  pose proof (generate_initial_handler_session client prompt ups w s Hs Hp) as Hi.
  pose proof (generate_next_version_handler_session client prompt ups w s Hs Hp) as Hn.
  cbv zeta in Hi, Hn. rewrite Himgs in Hi, Hn.
  split; intros response e Hc Hd.
  - destruct Hi as [_ ->]. rewrite Hc, Hd. by destruct imgs, s.
  - destruct Hn as [_ ->]. by rewrite Hc, Hd.
Qed.

(** ** No exception leaves a handler *)

Section RaisesOnly.

Variable ok : BaseException → Prop.
Hypothesis ok_Exc : ∀ e, ok (Exc e).

Lemma raises_only_ret {A} (a : A) : raises_only ok (mret a).
Proof. by intros w. Qed.

Lemma raises_only_emit (ev : UiEvent) : raises_only ok (emit ev).
Proof. by intros w. Qed.

Lemma raises_only_setattr (key : string) (v : Value) :
  raises_only ok (setattr key v).
Proof. by intros w. Qed.

Lemma raises_only_getattr (key : string) : raises_only ok (getattr key).
Proof.
  intros w. unfold getattr. destruct (session_state w !! key); cbn; [done|].
  apply ok_Exc.
Qed.

Lemma raises_only_raise {A} (b : BaseException) :
  ok b → raises_only ok (raise (A := A) b).
Proof. by intros Hb w. Qed.

Lemma raises_only_bind {A B} (m : M A) (f : A → M B) :
  raises_only ok m → (∀ a, raises_only ok (f a)) → raises_only ok (m ≫= f).
Proof.
  intros Hm Hf w. unfold mbind, M_bind. specialize (Hm w).
  destruct (m w) as [w1 [b|a]]; [exact Hm|]. apply Hf.
Qed.

Lemma raises_only_open_all (files : list bytes) : raises_only ok (open_all files).
Proof.
  intros w. rewrite open_all_mapM. destruct (mapM Image_open files); cbn; [done|].
  apply ok_Exc.
Qed.

Lemma raises_only_generate_content (client : Client) (contents : list Value) :
  raises_only ok (generate_content client contents).
Proof.
  intros w. unfold generate_content. destruct (client contents); cbn; [|done].
  apply ok_Exc.
Qed.

Lemma raises_only_lift {A} (r : Exception + A) : raises_only ok (lift r).
Proof. intros w. destruct r; cbn; [|done]. apply ok_Exc. Qed.

Lemma raises_only_extend (key : string) (imgs : list Image) :
  raises_only ok (extend key imgs).
Proof.
  unfold extend. apply raises_only_bind; [apply raises_only_getattr|].
  intros [| | |l]; (apply raises_only_setattr || by apply raises_only_raise).
Qed.

Lemma raises_only_append (key : string) (img : Image) :
  raises_only ok (append key img).
Proof.
  unfold append. apply raises_only_bind; [apply raises_only_getattr|].
  intros [| | |l]; (apply raises_only_setattr || by apply raises_only_raise).
Qed.

Lemma raises_only_show_image (v : Value) (caption : list Fmt) :
  raises_only ok (show_image v caption).
Proof.
  intros w. unfold show_image. destruct (st_image_raises v); cbn; [|done].
  apply ok_Exc.
Qed.

Lemma raises_only_gallery (imgs : list Image) (i : nat) :
  raises_only ok (gallery imgs i).
Proof.
  revert i. induction imgs as [|img imgs IH]; intros i; cbn [gallery].
  - apply raises_only_ret.
  - apply raises_only_bind; [apply raises_only_show_image | intros _; apply IH].
Qed.

End RaisesOnly.

(** [try: body except Exception as e: handler e] lets through only what the
    body raises outside [Exception], when the handler itself raises nothing. *)
Lemma raises_only_try_except {A} (ok : BaseException → Prop) (body : M A)
    (handler : Exception → M A) :
  raises_only ok body →
  (∀ e, raises_only (λ _, False) (handler e)) →
  raises_only (λ b, ok b ∧ ¬ is_Exception b) (try_except body handler).
Proof.
  intros Hb Hh w. unfold try_except. specialize (Hb w).
  destruct (body w) as [w' [[e| |]|a]]; cbn in *; [|by auto..].
  specialize (Hh e w'). by destruct (handler e w') as [w'' [b|a]].
Qed.

Ltac raises_ok := by (intros; cbn).

Ltac raises_step :=
  first
    [ apply raises_only_bind; [|intros ?]
    | apply raises_only_emit
    | apply raises_only_ret
    | apply raises_only_setattr
    | apply raises_only_getattr; raises_ok
    | apply raises_only_open_all; raises_ok
    | apply raises_only_generate_content; raises_ok
    | apply raises_only_lift; raises_ok
    | apply raises_only_extend; raises_ok
    | apply raises_only_append; raises_ok
    | apply raises_only_raise; raises_ok
    | match goal with
      | |- raises_only _ (if ?b then _ else _) => destruct b
      | |- raises_only _ (match ?v with _ => _ end) => destruct v
      end ].

Lemma generate_initial_handler_returns (client : Client) (prompt : string)
    (ups : list bytes) (w : World) :
  (generate_initial_handler client prompt ups w).2 = inr tt.
Proof.
  assert (H : raises_only (λ b, is_Exception b ∧ ¬ is_Exception b)
                (generate_initial_handler client prompt ups)).
  { unfold generate_initial_handler. destruct (negb _); [by intros w'|].
    apply raises_only_bind; [by intros w'|intros _].
    apply raises_only_try_except; [|by intros e w'].
    repeat raises_step. }
  specialize (H w).
  destruct (generate_initial_handler client prompt ups w).2 as [b|[]];
    [by destruct H|done].
Qed.

Lemma generate_next_version_handler_returns_or_reruns (client : Client)
    (prompt : string) (ups : list bytes) (w : World) :
  (generate_next_version_handler client prompt ups w).2 = inr tt ∨
  (generate_next_version_handler client prompt ups w).2 = inl RerunException.
Proof.
  assert (H : raises_only (λ b, Exception_or_rerun b ∧ ¬ is_Exception b)
                (generate_next_version_handler client prompt ups)).
  { unfold generate_next_version_handler. destruct (negb _); [by intros w'|].
    apply raises_only_bind; [by intros w'|intros _].
    apply raises_only_try_except; [|by intros e w'].
    repeat raises_step. }
  specialize (H w).
  destruct (generate_next_version_handler client prompt ups w).2
    as [[e| |]|[]]; cbn in H; [by destruct H|by destruct H|by right|by left].
Qed.

(** X6: no exception leaves a handler, whatever the session state, the
    uploads and the service do: the initial handler always ends normally, and
    the follow-up handler ends normally or by asking for a rerun. *)
Theorem handlers_contain_exceptions (client : Client) (prompt : string)
    (ups : list bytes) (w : World) :
  (generate_initial_handler client prompt ups w).2 = inr tt ∧
  ((generate_next_version_handler client prompt ups w).2 = inr tt ∨
   (generate_next_version_handler client prompt ups w).2 = inl RerunException).
Proof.
  split.
  - apply generate_initial_handler_returns.
  - apply generate_next_version_handler_returns_or_reruns.
Qed.

(** ** Replies that cannot be decoded *)

(** X7: the loop over the reply's parts fails exactly when some image part is
    a payload the codec rejects, wherever that part stands in the reply, and
    the failure is the codec's. *)
Theorem part_loop_fails_iff_undecodable (ps : list Part) (t0 : string)
    (i0 : option Image) (e : Exception) :
  part_loop ps t0 i0 = inl e ↔
    e = UnidentifiedImageError ∧
    Exists (λ d, Image_open d = None) (image_parts ps).
Proof.
  rewrite part_loop_spec.
  destruct (mapM Image_open (image_parts ps)) as [imgs|] eqn:H.
  - split; [done|]. intros [_ Hex]. apply mapM_None in Hex. congruence.
  - apply mapM_None in H. split; [|by intros [-> _]].
    by intros [= <-].
Qed.

(** ** The gallery *)

Lemma gallery_run (imgs : list Image) (i : nat) (w : World) :
  all_render imgs →
  gallery imgs i w =
    ({| session_state := session_state w;
        page := page w ++
          imap (λ j img, st_image (VImage img)
                           [Lit "Generated Image "; FmtNat (i + j + 1)]) imgs;
        calls := calls w |}, inr tt).
Proof.
  intros Hall. revert i w.
  induction Hall as [|img imgs Himg _ IH]; intros i w.
  - cbn. rewrite app_nil_r. by destruct w.
  - cbn [gallery]. unfold mbind, M_bind, show_image. rewrite Himg.
    cbn [emit session_state page calls].
    rewrite IH. cbn [session_state page calls imap]. rewrite <-(assoc_L (++)).
    rewrite Nat.add_0_r. do 3 f_equal. cbn [app]. f_equal.
    apply imap_ext. intros j x _. cbn.
    by replace (S (i + j + 1)) with (i + S j + 1) by lia.
Qed.

(** The loop stops at the first image that cannot be drawn. *)
Lemma gallery_stops (shown : list Image) (img : Image) (rest : list Image)
    (e : Exception) (i : nat) (w : World) :
  all_render shown →
  st_image_raises (VImage img) = Some e →
  gallery (shown ++ img :: rest) i w =
    ({| session_state := session_state w;
        page := page w ++
          imap (λ j img, st_image (VImage img)
                           [Lit "Generated Image "; FmtNat (i + j + 1)]) shown;
        calls := calls w |}, inl (Exc e)).
Proof.
  intros Hall Himg. revert i w.
  induction Hall as [|x shown Hx _ IH]; intros i w.
  - cbn [app gallery]. unfold mbind, M_bind, show_image. rewrite Himg.
    cbn. rewrite app_nil_r. by destruct w.
  - cbn [app gallery]. unfold mbind, M_bind, show_image. rewrite Hx.
    cbn [emit session_state page calls].
    rewrite IH. cbn [session_state page calls imap]. rewrite <-(assoc_L (++)).
    rewrite Nat.add_0_r. do 3 f_equal. cbn [app]. f_equal.
    apply imap_ext. intros j y _. cbn.
    by replace (S (i + j + 1)) with (i + S j + 1) by lia.
Qed.

(** Drawn or not, the gallery touches neither the session state nor the
    call log. *)
Lemma gallery_frame (imgs : list Image) (i : nat) (w : World) :
  session_state (gallery imgs i w).1 = session_state w ∧
  calls (gallery imgs i w).1 = calls w.
Proof.
  revert i w. induction imgs as [|img imgs IH]; intros i w; [done|].
  cbn [gallery]. unfold mbind, M_bind, show_image.
  destruct (st_image_raises (VImage img)); [done|].
  cbn [emit]. by destruct (IH (S i) {| session_state := session_state w;
    page := page w ++ [st_image (VImage img) [Lit "Generated Image "; FmtNat (i + 1)]];
    calls := calls w |}) as [-> ->].
Qed.

Lemma gallery_section_frame (w : World) :
  session_state (gallery_section w).1 = session_state w ∧
  calls (gallery_section w).1 = calls w.
Proof.
  unfold gallery_section, mbind, M_bind, getattr.
  destruct (session_state w !! "generated_images") as [v|]; [|done].
  destruct (truthy v); [|done]. cbn [emit session_state page calls].
  destruct v as [| | |l]; try done.
  match goal with
  | |- context [gallery l 0 ?w'] => by destruct (gallery_frame l 0 w') as [-> ->]
  end.
Qed.

Lemma gallery_section_run (w : World) (h : list Image) :
  session_state w !! "generated_images" = Some (VList h) →
  all_render h →
  gallery_section w =
    ({| session_state := session_state w;
        page := page w ++
          match h with
          | [] => []
          | _ :: _ =>
              [st_markdown [Lit "---"];
               st_subheader "All Generated Images in this Session"] ++
              imap (λ i img, st_image (VImage img)
                               [Lit "Generated Image "; FmtNat (i + 1)]) h
          end;
        calls := calls w |}, inr tt).
Proof.
  intros Hh Hall. unfold gallery_section, mbind, M_bind, getattr. rewrite Hh.
  destruct h as [|img h].
  - cbn. rewrite app_nil_r. by destruct w.
  - cbn [truthy length Nat.eqb negb emit session_state page calls].
    rewrite gallery_run by done. cbn [session_state page calls].
    by rewrite <-!(assoc_L (++)).
Qed.

Lemma gallery_section_stops (w : World) (shown : list Image) (img : Image)
    (rest : list Image) (e : Exception) :
  session_state w !! "generated_images" = Some (VList (shown ++ img :: rest)) →
  all_render shown →
  st_image_raises (VImage img) = Some e →
  gallery_section w =
    ({| session_state := session_state w;
        page := page w ++
          [st_markdown [Lit "---"];
           st_subheader "All Generated Images in this Session"] ++
          imap (λ i img, st_image (VImage img)
                           [Lit "Generated Image "; FmtNat (i + 1)]) shown;
        calls := calls w |}, inl (Exc e)).
Proof.
  intros Hh Hall Himg. unfold gallery_section, mbind, M_bind, getattr. rewrite Hh.
  assert (truthy (VList (shown ++ img :: rest)) = true) as ->.
  { cbn. rewrite length_app. cbn. by destruct (length shown + S (length rest)) eqn:?; [lia|]. }
  cbn [emit session_state page calls].
  rewrite (gallery_stops shown img rest e) by done. cbn [session_state page calls].
  by rewrite <-!(assoc_L (++)).
Qed.

(** X8: the gallery changes neither the session state nor the call log.  It
    shows nothing when no image was generated, and otherwise a rule, a
    heading and the generated images in the order of generation, captioned
    with their position counted from 1: all of them when every image can be
    drawn, and those before the first image that cannot be drawn otherwise,
    the script then ending on the exception [st.image] raised. *)
Theorem gallery_lists_every_image (w : World) (h : list Image) :
  session_state w !! "generated_images" = Some (VList h) →
  session_state (gallery_section w).1 = session_state w ∧
  calls (gallery_section w).1 = calls w ∧
  (all_render h →
     (gallery_section w).2 = inr tt ∧
     page (gallery_section w).1 =
       page w ++
         match h with
         | [] => []
         | _ :: _ =>
             [st_markdown [Lit "---"];
              st_subheader "All Generated Images in this Session"] ++
             imap (λ i img, st_image (VImage img)
                              [Lit "Generated Image "; FmtNat (i + 1)]) h
         end) ∧
  (∀ shown img rest e,
     h = shown ++ img :: rest →
     all_render shown →
     st_image_raises (VImage img) = Some e →
     (gallery_section w).2 = inl (Exc e) ∧
     page (gallery_section w).1 =
       page w ++
         [st_markdown [Lit "---"];
          st_subheader "All Generated Images in this Session"] ++
         imap (λ i img, st_image (VImage img)
                          [Lit "Generated Image "; FmtNat (i + 1)]) shown).
Proof.
  intros Hh. destruct (gallery_section_frame w) as [Hss Hcs].
  split; [done|]. split; [done|]. split.
  - intros Hall. by rewrite (gallery_section_run w h Hh Hall).
  - intros shown img rest e -> Hall Himg.
    by rewrite (gallery_section_stops w shown img rest e Hh Hall Himg).
Qed.

(** ** Executions in which no round is submitted *)

Lemma refine_section_idle (client : Client) (wd : Widgets) (w : World)
    (s : Session) :
  session_of (session_state w) = Some s →
  generate_next_version wd = false ∨ currentImage s = None →
  ∃ evs out,
    refine_section client wd w =
      ({| session_state := session_state w; page := page w ++ evs;
          calls := calls w |}, out) ∧
    (current_renders s → out = inr tt).
Proof.
  intros (Hc & Hl & Hd & Hh)%session_of_lookups Hidle.
  unfold refine_section, mbind, M_bind, getattr, current_renders. rewrite Hl.
  destruct (currentImage s) as [img|]; cbn [from_option truthy].
  - destruct Hidle as [Hidle|]; [|done]. rewrite Hidle.
    cbn [emit session_state page calls]. unfold show_image.
    destruct (st_image_raises (VImage img)) as [e|].
    { cbn. eexists _, _. split; [by rewrite <-!(assoc_L (++))|done]. }
    cbn [emit session_state page calls]. rewrite Hd.
    destruct (truthy (VStr (currentDescription s)));
      cbn [emit session_state page calls mret M_ret];
      rewrite <-!(assoc_L (++)); by eexists _, _.
  - exists [], (inr tt). rewrite app_nil_r. by destruct w.
Qed.

(** X9: an execution that finds the key and a Session, in which the initial
    button is not pressed and the follow-up button is not pressed or there is
    no current image yet, only redraws the page: the session state and the
    call log are those found.  It runs to its end when the current image and
    the generated images can be drawn. *)
Theorem idle_execution_keeps_session (env : Env) (wd : Widgets) (w : World)
    (s : Session) (key : Value) :
  GEMINI_KEY env = inr key →
  truthy key = true →
  session_of (session_state w) = Some s →
  generate_initial wd = false →
  generate_next_version wd = false ∨ currentImage s = None →
  session_state (main env wd w).1 = session_state w ∧
  calls (main env wd w).1 = calls w ∧
  (current_renders s → all_render (history s) → (main env wd w).2 = inr tt).
Proof.
  intros Hk Hkey Hs Hgi Hidle. unfold main. rewrite Hk, bind_lift_inr.
  unfold check_key, initial_section. rewrite Hkey, Hgi. cbn [negb].
  set (client := service env key).
  unfold mbind, M_bind.
  cbn [mret M_ret emit session_state page calls].
  rewrite initialize_union. cbn [session_state page calls].
  rewrite (session_of_union _ _ Hs).
  set (w1 := {| session_state := session_state w |}).
  destruct (refine_section_idle client wd w1 s Hs Hidle)
    as (evs & out & -> & Hout).
  destruct out as [b|[]].
  { cbn. split; [done|]. split; [done|]. intros Hcur _. by specialize (Hout Hcur). }
  set (w2 := {| session_state := session_state w1 |}).
  destruct (gallery_section_frame w2) as [Hss Hcs].
  split; [done|]. split; [done|]. intros _ Hall.
  pose proof Hs as (_ & _ & _ & Hh)%session_of_lookups.
  by rewrite (gallery_section_run w2 _ Hh Hall).
Qed.

(** ** Invariants of a session *)

Lemma preserves_ret (P : gmap string Value → list Call → Prop) {A} (a : A) :
  preserves P (mret a).
Proof. by intros w. Qed.

Lemma preserves_raise (P : gmap string Value → list Call → Prop) {A}
    (b : BaseException) : preserves P (raise (A := A) b).
Proof. by intros w. Qed.

Lemma preserves_emit (P : gmap string Value → list Call → Prop) (ev : UiEvent) :
  preserves P (emit ev).
Proof. by intros w. Qed.

Lemma preserves_getattr (P : gmap string Value → list Call → Prop)
    (key : string) : preserves P (getattr key).
Proof. intros w. unfold getattr. by destruct (session_state w !! key). Qed.

Lemma preserves_bind (P : gmap string Value → list Call → Prop) {A B}
    (m : M A) (f : A → M B) :
  preserves P m → (∀ a, preserves P (f a)) → preserves P (m ≫= f).
Proof.
  intros Hm Hf w HP. unfold mbind, M_bind. specialize (Hm w HP).
  destruct (m w) as [w1 [b|a]]; [exact Hm|]. by apply Hf.
Qed.

Lemma preserves_show_image (P : gmap string Value → list Call → Prop)
    (v : Value) (caption : list Fmt) : preserves P (show_image v caption).
Proof. intros w. unfold show_image. by destruct (st_image_raises v). Qed.

Lemma preserves_gallery (P : gmap string Value → list Call → Prop)
    (imgs : list Image) (i : nat) : preserves P (gallery imgs i).
Proof. intros w HP. by destruct (gallery_frame imgs i w) as [-> ->]. Qed.

Lemma request_parts_prompt_then_images (prompt : string)
    (seed : option Image) (imgs : list Image) :
  prompt ≠ "" → prompt_then_images (request_parts prompt seed imgs).
Proof.
  intros Hp. exists prompt, (option_list seed ++ imgs). split; [done|].
  unfold request_parts. by destruct seed.
Qed.

Lemma recordRound_coherent (r : string * option Image) (imgs : list Image)
    (s : Session) :
  currentImage s = last (history s) →
  currentImage (recordRound r imgs s) = last (history (recordRound r imgs s)).
Proof.
  intros Hco. destruct r as [txt [img|]]; cbn; [|done]. by rewrite last_snoc.
Qed.

Lemma preserves_generate_initial_handler (client : Client) (prompt : string)
    (ups : list bytes) :
  preserves invariant (generate_initial_handler client prompt ups).
Proof.
  intros w [(s & Hs & Hco) Hcalls].
  destruct (decide (prompt = "")) as [->|Hp]; [by split; [exists s|]|].
  pose proof (generate_initial_handler_session client prompt ups w s Hs Hp) as Hi.
  cbv zeta in Hi. destruct (mapM Image_open ups) as [imgs|].
  - destruct Hi as [-> Hsess]. split.
    + eexists. split; [exact Hsess|].
      assert (Hco' : currentImage (initial_context imgs s)
                     = last (history (initial_context imgs s))).
      { by destruct (initial_context_fields imgs s) as (-> & _ & ->). }
      destruct (client _) as [e|response]; [done|].
      destruct (decode_response response) as [e|r]; [done|].
      by apply recordRound_coherent.
    + apply Forall_app. split; [done|]. apply Forall_singleton.
      by apply request_parts_prompt_then_images.
  - destruct Hi as [-> ->]. by split; [exists s|].
Qed.

Lemma preserves_generate_next_version_handler (client : Client)
    (prompt : string) (ups : list bytes) :
  preserves invariant (generate_next_version_handler client prompt ups).
Proof.
  intros w [(s & Hs & Hco) Hcalls].
  destruct (decide (prompt = "")) as [->|Hp]; [by split; [exists s|]|].
  pose proof (generate_next_version_handler_session client prompt ups w s Hs Hp) as Hn.
  cbv zeta in Hn. destruct (mapM Image_open ups) as [imgs|].
  - destruct Hn as [-> Hsess]. split.
    + eexists. split; [exact Hsess|].
      destruct (client _) as [e|response]; [done|].
      destruct (decode_response response) as [e|r]; [done|].
      by apply recordRound_coherent.
    + apply Forall_app. split; [done|]. apply Forall_singleton.
      by apply request_parts_prompt_then_images.
  - destruct Hn as [-> ->]. by split; [exists s|].
Qed.

Ltac preserves_step :=
  first
    [ apply preserves_bind; [|intros ?]
    | apply preserves_emit
    | apply preserves_show_image
    | apply preserves_ret
    | apply preserves_raise
    | apply preserves_getattr
    | apply preserves_generate_initial_handler
    | apply preserves_generate_next_version_handler
    | apply preserves_gallery
    | match goal with
      | |- preserves _ (if ?b then _ else _) => destruct b
      | |- preserves _ (match ?v with _ => _ end) => destruct v
      end ].

Lemma preserves_initial_section (client : Client) (wd : Widgets) :
  preserves invariant (initial_section client wd).
Proof. unfold initial_section. repeat preserves_step. Qed.

Lemma preserves_refine_section (client : Client) (wd : Widgets) :
  preserves invariant (refine_section client wd).
Proof. unfold refine_section. repeat preserves_step. Qed.

Lemma preserves_gallery_section : preserves invariant gallery_section.
Proof. unfold gallery_section. repeat preserves_step. Qed.

Lemma coherent_initialized (ss : gmap string Value) :
  ss = ∅ ∨ coherent ss → coherent (ss ∪ state_of empty_session).
Proof.
  intros [->|(s & Hs & Hco)].
  - rewrite (left_id_L ∅ (∪)). exists empty_session. by vm_compute.
  - rewrite (session_of_union _ _ Hs). by exists s.
Qed.

Lemma main_session_invariant (env : Env) (wd : Widgets) :
  preserves session_invariant (main env wd).
Proof.
  intros w [Hss Hcalls]. unfold main.
  destruct (GEMINI_KEY env) as [e|key]; [by rewrite bind_lift_inl|].
  rewrite bind_lift_inr. unfold check_key.
  destruct (truthy key); cbn [negb]; [|by split].
  set (rest := initial_section _ wd ≫= _).
  assert (Hrest : preserves invariant rest).
  { unfold rest. apply preserves_bind; [apply preserves_initial_section|].
    intros _. apply preserves_bind; [apply preserves_refine_section|].
    intros _. apply preserves_gallery_section. }
  unfold mbind, M_bind. cbn [mret M_ret emit session_state page calls].
  rewrite initialize_union. cbn [session_state page calls].
  set (w1 := {| session_state := session_state w ∪ state_of empty_session |}).
  destruct (Hrest w1) as [Hco' Hcalls'].
  { split; [by apply coherent_initialized|done]. }
  split; [by right|done].
Qed.

Lemma run_session_invariant (runs : list (Env * Widgets)) (w : World) :
  session_invariant (session_state w) (calls w) →
  session_invariant (session_state (run_session runs w))
                    (calls (run_session runs w)).
Proof.
  revert w. induction runs as [|[env wd] runs IH]; intros w Hw; [done|].
  cbn [run_session]. apply IH.
  by apply (main_session_invariant env wd
    {| session_state := session_state w; page := []; calls := calls w |}).
Qed.

Lemma session_invariant_fresh : session_invariant (session_state fresh) (calls fresh).
Proof. split; [by left|]. constructor. Qed.

(** X10: throughout a session, from a fresh connection on, the current image
    is the last of the generated images, and there is no current image
    exactly as long as none was generated. *)
Theorem current_image_is_last_generated (runs : list (Env * Widgets))
    (s : Session) :
  session_of (session_state (run_session runs fresh)) = Some s →
  currentImage s = last (history s) ∧
  (currentImage s = None ↔ history s = []).
Proof.
  intros Hs.
  destruct (run_session_invariant runs fresh session_invariant_fresh)
    as [[Hempty|(s' & Hs' & Hco)] _].
  - rewrite Hempty in Hs. by vm_compute in Hs.
  - rewrite Hs in Hs'. injection Hs' as <-. split; [done|].
    rewrite Hco. apply last_None.
Qed.

(** X11: every call made to the model in a session, from a fresh connection
    on, carries a non-empty prompt followed by images only. *)
Theorem requests_are_prompt_then_images (runs : list (Env * Widgets)) :
  Forall (λ c, ∃ prompt imgs, prompt ≠ "" ∧ c.1 = VStr prompt :: map VImage imgs)
    (calls (run_session runs fresh)).
Proof.
  by destruct (run_session_invariant runs fresh session_invariant_fresh)
    as [_ Hcalls].
Qed.

(** X12: once a session has a current image it keeps having one, whatever
    the executions that follow do. *)
Theorem current_image_never_cleared (runs more : list (Env * Widgets))
    (s : Session) (img : Image) :
  session_of (session_state (run_session runs fresh)) = Some s →
  currentImage s = Some img →
  ∃ s' img',
    session_of (session_state (run_session (runs ++ more) fresh)) = Some s' ∧
    currentImage s' = Some img'.
Proof.
  intros Hs Himg.
  destruct (run_session_invariant runs fresh session_invariant_fresh)
    as [[Hempty|(s0 & Hs0 & Hco)] _]; [rewrite Hempty in Hs; by vm_compute in Hs|].
  rewrite Hs in Hs0. injection Hs0 as <-.
  destruct (run_session_invariant (runs ++ more) fresh session_invariant_fresh)
    as [[Hempty|(s' & Hs' & Hco')] _].
  - destruct (run_session_step runs fresh wf_fresh) as [Hwf _].
    rewrite run_session_app in Hempty.
    destruct (run_session_step more _ Hwf) as [_ (new & _ & Hh)].
    rewrite Hempty, (session_of_history _ _ Hs) in Hh.
    rewrite Himg in Hco. destruct (history s); [done|]. by vm_compute in Hh.
  - destruct (run_session_step runs fresh wf_fresh) as [Hwf _].
    pose proof Hs' as Hs''. rewrite run_session_app in Hs''.
    destruct (run_session_step more _ Hwf) as [_ (new & _ & Hh)].
    rewrite (session_of_history _ _ Hs''), (session_of_history _ _ Hs) in Hh.
    exists s'. rewrite Hco', Hh. rewrite Himg in Hco.
    destruct (last (history s ++ round_images new)) as [img'|] eqn:Hlast;
      [by exists img'|].
    apply last_None, app_eq_nil in Hlast as [Hnil _].
    by rewrite Hnil in Hco.
Qed.

(** ** How an execution ends *)

Lemma initial_section_returns (client : Client) (wd : Widgets) (w : World) :
  (initial_section client wd w).2 = inr tt.
Proof.
  unfold initial_section, mbind, M_bind. cbn [emit session_state page calls].
  destruct (generate_initial wd); [|done].
  apply generate_initial_handler_returns.
Qed.

Lemma gallery_ends (imgs : list Image) (i : nat) (w : World) :
  ends_or_st_image_raised (gallery imgs i w).2.
Proof.
  revert i w. induction imgs as [|img imgs IH]; intros i w; [by left|].
  cbn [gallery]. unfold mbind, M_bind, show_image.
  destruct (st_image_raises (VImage img)) as [e|] eqn:Himg.
  - right. right. by exists (VImage img), e.
  - cbn [emit]. apply IH.
Qed.

Lemma gallery_section_ends (w : World) (s : Session) :
  session_of (session_state w) = Some s →
  ends_or_st_image_raised (gallery_section w).2.
Proof.
  intros (_ & _ & _ & Hh)%session_of_lookups.
  unfold gallery_section, mbind, M_bind, getattr. rewrite Hh.
  destruct (truthy (VList (history s))); [|by left].
  cbn [emit session_state page calls]. apply gallery_ends.
Qed.

Lemma refine_section_ends (client : Client) (wd : Widgets) (w : World)
    (s : Session) :
  session_of (session_state w) = Some s →
  ends_or_st_image_raised (refine_section client wd w).2.
Proof.
  intros (Hc & Hl & Hd & Hh)%session_of_lookups.
  unfold refine_section, mbind, M_bind, getattr. rewrite Hl.
  destruct (currentImage s) as [img|]; cbn [from_option truthy]; [|by left].
  cbn [emit session_state page calls]. unfold show_image.
  destruct (st_image_raises (VImage img)) as [e|] eqn:Himg.
  { right. right. by exists (VImage img), e. }
  cbn [emit session_state page calls]. rewrite Hd.
  destruct (truthy (VStr (currentDescription s)));
    cbn [emit session_state page calls mret M_ret];
    (destruct (generate_next_version wd); [|by left]);
    match goal with
    | |- context [generate_next_version_handler ?c ?p ?u ?w'] =>
        destruct (generate_next_version_handler_returns_or_reruns c p u w')
          as [-> | ->]
    end; (by left) || (by right; left).
Qed.

(** X13: how an execution can end, on a session state the script has
    initialised or can still initialise.  When the environment gives no key
    and there is no secrets file, it ends at once on the secrets store's
    exception.  When no key is found it stops.  With a key it runs to its end,
    asks for a rerun, or ends on an exception that [st.image] raised while
    drawing; nothing raised inside a round escapes.  If [st.image] never
    raises, an execution with a key runs to its end or asks for a rerun. *)
Theorem execution_end (env : Env) (wd : Widgets) (w : World) :
  wf (session_state w) →
  match GEMINI_KEY env with
  | inl e =>
      e = StreamlitSecretNotFoundError ∧ main env wd w = (w, inl (Exc e))
  | inr key =>
      if truthy key then ends_or_st_image_raised (main env wd w).2
      else (main env wd w).2 = inl StopException
  end ∧
  ((∀ v, st_image_raises v = None) →
   ∀ key, GEMINI_KEY env = inr key → truthy key = true →
     (main env wd w).2 = inr tt ∨ (main env wd w).2 = inl RerunException).
Proof.
  intros [s0 Hs0].
  assert (Hmain : match GEMINI_KEY env with
    | inl e =>
        e = StreamlitSecretNotFoundError ∧ main env wd w = (w, inl (Exc e))
    | inr key =>
        if truthy key then ends_or_st_image_raised (main env wd w).2
        else (main env wd w).2 = inl StopException
    end).
  { unfold main. destruct (GEMINI_KEY env) as [e|key] eqn:Hk.
    { rewrite bind_lift_inl. split; [|done].
      unfold GEMINI_KEY, secrets_get in Hk.
      destruct (truthy _); [done|]. destruct (secrets env); [done|].
      by injection Hk as <-. }
    rewrite bind_lift_inr. unfold check_key.
    destruct (truthy key); cbn [negb]; [|done].
    set (client := service env key).
    unfold mbind, M_bind. cbn [mret M_ret emit session_state page calls].
    rewrite initialize_union. cbn [session_state page calls].
    set (w1 := {| session_state := session_state w ∪ state_of empty_session |}).
    pose proof (initial_section_returns client wd w1) as Hr1.
    destruct (sound_initial_section client wd w1 s0 Hs0) as (s2 & _ & Hs2 & _).
    destruct (initial_section client wd w1) as [w2 r2]. cbn in Hr1, Hs2. subst r2.
    pose proof (refine_section_ends client wd w2 s2 Hs2) as Hr2.
    destruct (sound_refine_section client wd w2 s2 Hs2) as (s3 & _ & Hs3 & _).
    destruct (refine_section client wd w2) as [w3 [b|[]]]; cbn in Hr2, Hs3;
      [exact Hr2|].
    apply (gallery_section_ends w3 s3 Hs3). }
  split; [exact Hmain|].
  intros Hrender key Hk Hkey. rewrite Hk, Hkey in Hmain.
  destruct Hmain as [H|[H|(v & e & Hv & _)]]; [by left|by right|].
  by rewrite Hrender in Hv.
Qed.

End Script.

(** * Concrete runs *)

(** A reply with two image parts around a text part decodes to the text and
    the last image; a reply with text only decodes without error. *)
Lemma decode_parts_witness :
  (part_loop Sample.Image_open
     [Sample.image_part [Byte.x07]; Sample.text_part "Two views.";
      Sample.image_part [Byte.x01; Byte.x02; Byte.x03]] "" None
     = inr ("Two views." +:+ newline, Some 3)) ∧
  (part_loop Sample.Image_open [Sample.text_part "I cannot draw that."] "" None
     = inr ("I cannot draw that." +:+ newline, None)) ∧
  (("Two views." +:+ newline, Some 3)
     = (spec_text [Sample.image_part [Byte.x07]; Sample.text_part "Two views.";
                   Sample.image_part [Byte.x01; Byte.x02; Byte.x03]],
        spec_image Sample.Image_open
                  [Sample.image_part [Byte.x07]; Sample.text_part "Two views.";
                   Sample.image_part [Byte.x01; Byte.x02; Byte.x03]])).
Proof.
  split; [|split].
  - apply (proj1 (proj2 (decode_parts_text_and_last_image Sample.Image_open
      [Sample.image_part [Byte.x07]; Sample.text_part "Two views.";
       Sample.image_part [Byte.x01; Byte.x02; Byte.x03]]))).
    repeat constructor; eexists; reflexivity.
  - apply (proj2 (proj2 (decode_parts_text_and_last_image Sample.Image_open
      [Sample.text_part "I cannot draw that."]))).
    reflexivity.
  - apply (proj1 (decode_parts_text_and_last_image Sample.Image_open
      [Sample.image_part [Byte.x07]; Sample.text_part "Two views.";
       Sample.image_part [Byte.x01; Byte.x02; Byte.x03]])).
    reflexivity.
Defined.

(** A state that holds a Session comes back from initialisation as it was. *)
Lemma initialize_idempotent_witness :
  (initialize (world_of {| contextImages := [2]; currentImage := Some 3;
                           currentDescription := "A gold ring.";
                           history := [3] |})).1
    = world_of {| contextImages := [2]; currentImage := Some 3;
                  currentDescription := "A gold ring."; history := [3] |} ∧
  session_state
    (initialize (world_of {| contextImages := [2]; currentImage := Some 3;
                             currentDescription := "A gold ring.";
                             history := [3] |})).1 !! "image_history"
    = Some (VList [2]).
Proof.
  split.
  - apply (proj1 (proj2 (proj2 (initialize_idempotent (world_of
       {| contextImages := [2]; currentImage := Some 3;
          currentDescription := "A gold ring."; history := [3] |}))))
       {| contextImages := [2]; currentImage := Some 3;
          currentDescription := "A gold ring."; history := [3] |}).
    vm_compute. reflexivity.
  - apply (proj1 (proj2 (initialize_idempotent (world_of
       {| contextImages := [2]; currentImage := Some 3;
          currentDescription := "A gold ring."; history := [3] |})))).
    vm_compute. reflexivity.
Defined.

(** The environment variable wins over the secrets store, which need not
    exist then; the store is used when the variable is unset; with a store
    that holds no key the script stops on the error; with no store at all it
    ends on the store's exception. *)
Lemma credential_resolution_witness :
  GEMINI_KEY (Image := Sample.Image)
    {| environ := {["GEMINI_KEY" := "from-env"]}; secrets := None;
       service := λ _ _, inl (ServiceError "down") |} = inr (VStr "from-env") ∧
  GEMINI_KEY (Image := Sample.Image)
    {| environ := ∅; secrets := Some {["GEMINI_KEY" := "from-secrets"]};
       service := λ _ _, inl (ServiceError "down") |}
    = inr (VStr "from-secrets") ∧
  main Sample.Image_open (λ _, None)
    {| environ := {["GEMINI_KEY" := ""]}; secrets := Some ∅;
       service := λ _ _, inl (ServiceError "down") |}
    (submit_initial "a ring" []) fresh
    = ({| session_state := ∅;
          page := [st_error [Lit key_not_found]];
          calls := [] |}, inl StopException) ∧
  main Sample.Image_open (λ _, None)
    {| environ := ∅; secrets := None;
       service := λ _ _, inl (ServiceError "down") |}
    (submit_initial "a ring" []) fresh
    = (fresh, inl (Exc StreamlitSecretNotFoundError)).
Proof.
  split; [|split; [|split]].
  - apply (proj1 (credential_resolution Sample.Image_open (λ _, None)
      {| environ := {["GEMINI_KEY" := "from-env"]}; secrets := None;
         service := λ _ _, inl (ServiceError "down") |}
      (submit_initial "a ring" []) fresh) "from-env").
    + reflexivity.
    + discriminate.
  - exact (proj1 (proj2 (credential_resolution Sample.Image_open (λ _, None)
      {| environ := ∅; secrets := Some {["GEMINI_KEY" := "from-secrets"]};
         service := λ _ _, inl (ServiceError "down") |}
      (submit_initial "a ring" []) fresh)) (or_introl eq_refl)).
  - eapply (proj1 (proj2 (proj2 (credential_resolution Sample.Image_open (λ _, None)
      {| environ := {["GEMINI_KEY" := ""]}; secrets := Some ∅;
         service := λ _ _, inl (ServiceError "down") |}
      (submit_initial "a ring" []) fresh)))).
    + right. reflexivity.
    + reflexivity.
    + left. reflexivity.
  - apply (proj2 (proj2 (proj2 (credential_resolution Sample.Image_open (λ _, None)
      {| environ := ∅; secrets := None;
         service := λ _ _, inl (ServiceError "down") |}
      (submit_initial "a ring" []) fresh)))).
    + left. reflexivity.
    + reflexivity.
Defined.

(** A follow-up round on a Session with a current image: the contents are the
    prompt, the current image, the upload; the initial round sends no seed. *)
Lemma request_parts_sent_witness :
  calls (generate_initial_handler Sample.Image_open (λ _, inr Sample.reply_image)
           "make it blue" [Sample.photo]
           (world_of
       {| contextImages := [2]; currentImage := Some 3;
          currentDescription := "A gold ring."; history := [3] |})).1
    = [([VStr "make it blue"; VImage 4], inr Sample.reply_image)] ∧
  calls (generate_next_version_handler Sample.Image_open
           (λ _, inr Sample.reply_image) "make it blue" [Sample.photo]
           (world_of
       {| contextImages := [2]; currentImage := Some 3;
          currentDescription := "A gold ring."; history := [3] |})).1
    = [([VStr "make it blue"; VImage 3; VImage 4], inr Sample.reply_image)].
Proof.
  apply (request_parts_sent Sample.Image_open (λ _, inr Sample.reply_image)
           "make it blue" [Sample.photo] [4]
           (world_of
       {| contextImages := [2]; currentImage := Some 3;
          currentDescription := "A gold ring."; history := [3] |})
           {| contextImages := [2]; currentImage := Some 3;
          currentDescription := "A gold ring."; history := [3] |}).
  - vm_compute. reflexivity.
  - discriminate.
  - reflexivity.
Defined.

(** A text-only reply changes the description alone. *)
Lemma text_only_round_witness :
  session_of (session_state
    (generate_initial_handler Sample.Image_open (λ _, inr Sample.reply_text)
       "a unicorn" []
       (world_of
       {| contextImages := [2]; currentImage := Some 3;
          currentDescription := "A gold ring."; history := [3] |})).1)
    = Some {| contextImages := [2]; currentImage := Some 3;
              currentDescription := "I cannot draw that." +:+ newline;
              history := [3] |} ∧
  session_of (session_state
    (generate_next_version_handler Sample.Image_open (λ _, inr Sample.reply_text)
       "a unicorn" []
       (world_of
       {| contextImages := [2]; currentImage := Some 3;
          currentDescription := "A gold ring."; history := [3] |})).1)
    = Some {| contextImages := [2]; currentImage := Some 3;
              currentDescription := "I cannot draw that." +:+ newline;
              history := [3] |}.
Proof.
  pose proof (text_only_round Sample.Image_open (λ _, inr Sample.reply_text)
    "a unicorn" [] []
    (world_of
       {| contextImages := [2]; currentImage := Some 3;
          currentDescription := "A gold ring."; history := [3] |})
    {| contextImages := [2]; currentImage := Some 3;
          currentDescription := "A gold ring."; history := [3] |}
    ("I cannot draw that." +:+ newline)) as H.
  destruct H as [Hi Hn].
  - vm_compute. reflexivity.
  - discriminate.
  - reflexivity.
  - split.
    + apply (Hi Sample.reply_text); reflexivity.
    + apply (Hn Sample.reply_text); reflexivity.
Defined.

(** A failed call after an upload: the generated images, the current image
    and the description stay; the upload is in the context images. *)
Lemma failed_call_keeps_generated_witness :
  session_of (session_state
    (generate_initial_handler Sample.Image_open
       (λ _, inl (ServiceError "quota exceeded")) "a ring" [Sample.photo]
       (world_of
       {| contextImages := [2]; currentImage := Some 3;
          currentDescription := "A gold ring."; history := [3] |})).1)
    = Some {| contextImages := [4]; currentImage := Some 3;
              currentDescription := "A gold ring."; history := [3] |} ∧
  session_of (session_state
    (generate_next_version_handler Sample.Image_open
       (λ _, inl (ServiceError "quota exceeded")) "a ring" [Sample.photo]
       (world_of
       {| contextImages := [2]; currentImage := Some 3;
          currentDescription := "A gold ring."; history := [3] |})).1)
    = Some {| contextImages := [2; 4]; currentImage := Some 3;
              currentDescription := "A gold ring."; history := [3] |}.
Proof.
  pose proof (failed_call_keeps_generated Sample.Image_open
    (λ _, inl (ServiceError "quota exceeded")) "a ring" [Sample.photo] [4]
    (world_of
       {| contextImages := [2]; currentImage := Some 3;
          currentDescription := "A gold ring."; history := [3] |})
    {| contextImages := [2]; currentImage := Some 3;
          currentDescription := "A gold ring."; history := [3] |}) as H.
  destruct H as [Hi Hn].
  - vm_compute. reflexivity.
  - discriminate.
  - reflexivity.
  - split.
    + apply (Hi (ServiceError "quota exceeded")). reflexivity.
    + apply (Hn (ServiceError "quota exceeded")). reflexivity.
Defined.

(** A reply with two image parts adds one image, the last. *)
Lemma history_grows_by_at_most_one_witness :
  ∃ s',
    session_of (session_state
      (generate_next_version_handler Sample.Image_open
         (λ _, inr Sample.reply_two_images) "another view" []
         (world_of
       {| contextImages := [2]; currentImage := Some 3;
          currentDescription := "A gold ring."; history := [3] |})).1) = Some s' ∧
    history s' = [3; 3] ∧ length (history s') = 2.
Proof.
  pose proof (history_grows_by_at_most_one Sample.Image_open
    (λ _, inr Sample.reply_two_images) "another view" []
    (world_of
       {| contextImages := [2]; currentImage := Some 3;
          currentDescription := "A gold ring."; history := [3] |})
    {| contextImages := [2]; currentImage := Some 3;
          currentDescription := "A gold ring."; history := [3] |}) as H.
  destruct H as (_ & _ & _ & Hn).
  - vm_compute. reflexivity.
  - apply (Hn [] Sample.reply_two_images ("Two views." +:+ newline) (Some 3)).
    + discriminate.
    + reflexivity.
    + reflexivity.
    + reflexivity.
Defined.

(** A follow-up round appends its upload, an initial round stores its upload
    in place of what it finds, a round with an empty file next to the upload
    changes nothing, and initialisation keeps the context images. *)
Lemma context_images_appended_or_replaced_witness :
  (∃ s',
     session_of (session_state
       (generate_next_version_handler Sample.Image_open
          (λ _, inr Sample.reply_image) "a ring" [Sample.photo]
          (world_of
       {| contextImages := [2]; currentImage := Some 3;
          currentDescription := "A gold ring."; history := [3] |})).1) = Some s' ∧
     contextImages s' = [2; 4]) ∧
  (∃ s',
     session_of (session_state
       (generate_initial_handler Sample.Image_open
          (λ _, inr Sample.reply_image) "a ring" [Sample.photo]
          (world_of
       {| contextImages := [2]; currentImage := Some 3;
          currentDescription := "A gold ring."; history := [3] |})).1) = Some s' ∧
     contextImages s' = [4]) ∧
  session_state
    (generate_initial_handler Sample.Image_open
       (λ _, inr Sample.reply_image) "a ring" [Sample.photo; []]
       (world_of
       {| contextImages := [2]; currentImage := Some 3;
          currentDescription := "A gold ring."; history := [3] |})).1
    = state_of
        {| contextImages := [2]; currentImage := Some 3;
          currentDescription := "A gold ring."; history := [3] |} ∧
  session_of (session_state (initialize
    (world_of
       {| contextImages := [2]; currentImage := Some 3;
          currentDescription := "A gold ring."; history := [3] |})).1)
    = Some {| contextImages := [2]; currentImage := Some 3;
          currentDescription := "A gold ring."; history := [3] |}.
Proof.
  pose proof (context_images_appended_or_replaced Sample.Image_open
    (λ _, inr Sample.reply_image) "a ring" [Sample.photo]
    (world_of
       {| contextImages := [2]; currentImage := Some 3;
          currentDescription := "A gold ring."; history := [3] |})
    {| contextImages := [2]; currentImage := Some 3;
          currentDescription := "A gold ring."; history := [3] |}) as H.
  destruct H as (Hn & Hi & _ & Hinit); [vm_compute; reflexivity|].
  split; [|split; [|split]].
  - apply (Hn [4]); [discriminate | reflexivity].
  - apply (Hi [4]); [discriminate | reflexivity].
  - apply (context_images_appended_or_replaced Sample.Image_open
      (λ _, inr Sample.reply_image) "a ring" [Sample.photo; []]
      (world_of
       {| contextImages := [2]; currentImage := Some 3;
          currentDescription := "A gold ring."; history := [3] |})
      {| contextImages := [2]; currentImage := Some 3;
          currentDescription := "A gold ring."; history := [3] |}).
    + vm_compute. reflexivity.
    + right. reflexivity.
  - exact Hinit.
Defined.

(** C1 does not hold as stated.  A first execution generates an image; in the
    second the user uploads a photo with a follow-up prompt and the service
    raises: the photo is in the context images all the same, so the session
    state after the failed round is not the one before it. *)
Lemma failed_call_changes_context_images :
  session_of (session_state (run_session Sample.Image_open (λ _, None)
    [(env_replying (inr Sample.reply_image),
      submit_initial "a ring" [Sample.sketch])] fresh))
    = Some {| contextImages := [2]; currentImage := Some 3;
              currentDescription := "A gold ring." +:+ newline;
              history := [3] |} ∧
  session_of (session_state (run_session Sample.Image_open (λ _, None)
    [(env_replying (inr Sample.reply_image),
      submit_initial "a ring" [Sample.sketch]);
     (env_replying (inl (ServiceError "quota exceeded")),
      submit_followup "make it blue" [Sample.photo])] fresh))
    = Some {| contextImages := [2; 4]; currentImage := Some 3;
              currentDescription := "A gold ring." +:+ newline;
              history := [3] |} ∧
  last (calls (run_session Sample.Image_open (λ _, None)
    [(env_replying (inr Sample.reply_image),
      submit_initial "a ring" [Sample.sketch]);
     (env_replying (inl (ServiceError "quota exceeded")),
      submit_followup "make it blue" [Sample.photo])] fresh))
    = Some ([VStr "make it blue"; VImage 3; VImage 4],
            inl (ServiceError "quota exceeded")) ∧
  session_state (run_session Sample.Image_open (λ _, None)
    [(env_replying (inr Sample.reply_image),
      submit_initial "a ring" [Sample.sketch]);
     (env_replying (inl (ServiceError "quota exceeded")),
      submit_followup "make it blue" [Sample.photo])] fresh)
    ≠ session_state (run_session Sample.Image_open (λ _, None)
        [(env_replying (inr Sample.reply_image),
          submit_initial "a ring" [Sample.sketch])] fresh).
Proof.
  split; [by vm_compute|]. split; [by vm_compute|]. split; [by vm_compute|].
  intros H. apply (f_equal (λ ss, ss !! "image_history")) in H.
  vm_compute in H. discriminate H.
Qed.

(** C2 does not hold as stated.  Two initial rounds, each with an upload: the
    second stores its upload in place of the first's, so the context images
    before it are not a prefix of those after it. *)
Lemma initial_round_replaces_context_images :
  session_of (session_state (run_session Sample.Image_open (λ _, None)
    [(env_replying (inr Sample.reply_image),
      submit_initial "a ring" [Sample.sketch])] fresh))
    = Some {| contextImages := [2]; currentImage := Some 3;
              currentDescription := "A gold ring." +:+ newline;
              history := [3] |} ∧
  session_of (session_state (run_session Sample.Image_open (λ _, None)
    [(env_replying (inr Sample.reply_image),
      submit_initial "a ring" [Sample.sketch]);
     (env_replying (inr Sample.reply_image),
      submit_initial "a bracelet" [Sample.photo])] fresh))
    = Some {| contextImages := [4]; currentImage := Some 3;
              currentDescription := "A gold ring." +:+ newline;
              history := [3; 3] |} ∧
  ¬ ([2] `prefix_of` [4]).
Proof.
  split; [by vm_compute|]. split; [by vm_compute|].
  intros [k Hk]. discriminate Hk.
Qed.

(** An initial round that gets an image shows the progress message and the
    success message, and ends normally. *)
Lemma initial_round_feedback_witness :
  page (generate_initial_handler Sample.Image_open (λ _, inr Sample.reply_image)
          "a ring" [Sample.photo]
          (world_of
       {| contextImages := [2]; currentImage := Some 3;
          currentDescription := "A gold ring."; history := [3] |})).1
    = [st_info [Lit "Generating initial image... This may take a moment."];
       st_success [Lit "Initial image generated successfully!"]] ∧
  (generate_initial_handler Sample.Image_open (λ _, inr Sample.reply_image)
     "a ring" [Sample.photo]
     (world_of
       {| contextImages := [2]; currentImage := Some 3;
          currentDescription := "A gold ring."; history := [3] |})).2 = inr tt.
Proof.
  apply (initial_round_feedback Sample.Image_open (λ _, inr Sample.reply_image)
           "a ring" [Sample.photo] [4]
           (world_of
       {| contextImages := [2]; currentImage := Some 3;
          currentDescription := "A gold ring."; history := [3] |})
           {| contextImages := [2]; currentImage := Some 3;
          currentDescription := "A gold ring."; history := [3] |}).
  - vm_compute. reflexivity.
  - discriminate.
  - reflexivity.
Defined.

(** A follow-up round that gets an image asks for a rerun; one whose call
    raises shows the error and ends normally. *)
Lemma followup_round_feedback_witness :
  (generate_next_version_handler Sample.Image_open (λ _, inr Sample.reply_image)
     "make it blue" []
     (world_of
       {| contextImages := [2]; currentImage := Some 3;
          currentDescription := "A gold ring."; history := [3] |})).2 = inl RerunException ∧
  page (generate_next_version_handler Sample.Image_open
          (λ _, inl (ServiceError "quota exceeded")) "make it blue" []
          (world_of
       {| contextImages := [2]; currentImage := Some 3;
          currentDescription := "A gold ring."; history := [3] |})).1
    = [st_info [Lit "Generating next image version... This may take a moment."];
       st_error [Lit "An error occurred during follow-up generation: ";
                 FmtExc (ServiceError "quota exceeded")]].
Proof.
  split.
  - apply (followup_round_feedback Sample.Image_open (λ _, inr Sample.reply_image)
             "make it blue" [] []
             (world_of
       {| contextImages := [2]; currentImage := Some 3;
          currentDescription := "A gold ring."; history := [3] |})
             {| contextImages := [2]; currentImage := Some 3;
          currentDescription := "A gold ring."; history := [3] |}).
    + vm_compute. reflexivity.
    + discriminate.
    + reflexivity.
  - apply (followup_round_feedback Sample.Image_open
             (λ _, inl (ServiceError "quota exceeded")) "make it blue" [] []
             (world_of
       {| contextImages := [2]; currentImage := Some 3;
          currentDescription := "A gold ring."; history := [3] |})
             {| contextImages := [2]; currentImage := Some 3;
          currentDescription := "A gold ring."; history := [3] |}).
    + vm_compute. reflexivity.
    + discriminate.
    + reflexivity.
Defined.

(** An upload with an empty file next to a photo: nothing is sent or stored. *)
Lemma unreadable_upload_rejected_witness :
  generate_next_version_handler Sample.Image_open (λ _, inr Sample.reply_image)
    "make it blue" [Sample.photo; []]
    (world_of
       {| contextImages := [2]; currentImage := Some 3;
          currentDescription := "A gold ring."; history := [3] |})
    = ({| session_state := state_of
            {| contextImages := [2]; currentImage := Some 3;
          currentDescription := "A gold ring."; history := [3] |};
          page :=
            [st_info [Lit "Generating next image version... This may take a moment."];
             st_error [Lit "An error occurred during follow-up generation: ";
                       FmtExc UnidentifiedImageError]];
          calls := [] |}, inr tt).
Proof.
  apply (unreadable_upload_rejected Sample.Image_open (λ _, inr Sample.reply_image)
           "make it blue" [Sample.photo; []]
           (world_of
       {| contextImages := [2]; currentImage := Some 3;
          currentDescription := "A gold ring."; history := [3] |})
           {| contextImages := [2]; currentImage := Some 3;
          currentDescription := "A gold ring."; history := [3] |}).
  - vm_compute. reflexivity.
  - discriminate.
  - reflexivity.
Defined.

(** A follow-up round with an upload that gets an image. *)
Lemma image_round_recorded_witness :
  session_of (session_state
    (generate_next_version_handler Sample.Image_open (λ _, inr Sample.reply_image)
       "make it blue" [Sample.photo]
       (world_of
       {| contextImages := [2]; currentImage := Some 3;
          currentDescription := "A gold ring."; history := [3] |})).1)
    = Some {| contextImages := [2; 4]; currentImage := Some 3;
              currentDescription := "A gold ring." +:+ newline;
              history := [3; 3] |} ∧
  session_of (session_state
    (generate_initial_handler Sample.Image_open (λ _, inr Sample.reply_image)
       "make it blue" [Sample.photo]
       (world_of
       {| contextImages := [2]; currentImage := Some 3;
          currentDescription := "A gold ring."; history := [3] |})).1)
    = Some {| contextImages := [4]; currentImage := Some 3;
              currentDescription := "A gold ring." +:+ newline;
              history := [3; 3] |}.
Proof.
  pose proof (image_round_recorded Sample.Image_open (λ _, inr Sample.reply_image)
    "make it blue" [Sample.photo] [4]
    (world_of
       {| contextImages := [2]; currentImage := Some 3;
          currentDescription := "A gold ring."; history := [3] |})
    {| contextImages := [2]; currentImage := Some 3;
          currentDescription := "A gold ring."; history := [3] |}
    ("A gold ring." +:+ newline) 3) as H.
  destruct H as [Hi Hn].
  - vm_compute. reflexivity.
  - discriminate.
  - reflexivity.
  - split; [apply Hn | apply Hi]; reflexivity.
Defined.

(** A reply without candidates: the generated state stays. *)
Lemma undecodable_reply_keeps_generated_witness :
  session_of (session_state
    (generate_next_version_handler Sample.Image_open
       (λ _, inr {| candidates := Some [] |}) "make it blue" [Sample.photo]
       (world_of
       {| contextImages := [2]; currentImage := Some 3;
          currentDescription := "A gold ring."; history := [3] |})).1)
    = Some {| contextImages := [2; 4]; currentImage := Some 3;
              currentDescription := "A gold ring."; history := [3] |} ∧
  session_of (session_state
    (generate_initial_handler Sample.Image_open
       (λ _, inr {| candidates := Some [] |}) "make it blue" [Sample.photo]
       (world_of
       {| contextImages := [2]; currentImage := Some 3;
          currentDescription := "A gold ring."; history := [3] |})).1)
    = Some {| contextImages := [4]; currentImage := Some 3;
              currentDescription := "A gold ring."; history := [3] |}.
Proof.
  pose proof (undecodable_reply_keeps_generated Sample.Image_open
    (λ _, inr {| candidates := Some [] |}) "make it blue" [Sample.photo] [4]
    (world_of
       {| contextImages := [2]; currentImage := Some 3;
          currentDescription := "A gold ring."; history := [3] |})
    {| contextImages := [2]; currentImage := Some 3;
          currentDescription := "A gold ring."; history := [3] |}) as H.
  destruct H as [Hi Hn].
  - vm_compute. reflexivity.
  - discriminate.
  - reflexivity.
  - split.
    + apply (Hn {| candidates := Some [] |} IndexError); reflexivity.
    + apply (Hi {| candidates := Some [] |} IndexError); reflexivity.
Defined.

(** A reply whose first image part is empty fails although its last image
    part is fine. *)
Lemma part_loop_fails_iff_undecodable_witness :
  part_loop Sample.Image_open
    [Sample.image_part []; Sample.text_part "Two views.";
     Sample.image_part [Byte.x01]] "" None = inl UnidentifiedImageError ∧
  Exists (λ d, Sample.Image_open d = None)
    (image_parts [Sample.text_part "One view."; Sample.image_part []]).
Proof.
  split.
  - apply (proj2 (part_loop_fails_iff_undecodable Sample.Image_open
      [Sample.image_part []; Sample.text_part "Two views.";
       Sample.image_part [Byte.x01]] "" None UnidentifiedImageError)).
    split; [reflexivity|]. constructor. reflexivity.
  - apply (proj1 (part_loop_fails_iff_undecodable Sample.Image_open
      [Sample.text_part "One view."; Sample.image_part []] "" None
      UnidentifiedImageError)).
    reflexivity.
Defined.

(** The gallery of a session with three generated images: all are shown when
    all can be drawn; when the second cannot, the first is shown and the
    script ends on the exception. *)
Lemma gallery_lists_every_image_witness :
  page (gallery_section (λ _, None)
    (world_of {| contextImages := []; currentImage := Some 7;
                 currentDescription := ""; history := [3; 5; 7] |})).1
    = [st_markdown [Lit "---"];
       st_subheader "All Generated Images in this Session";
       st_image (VImage 3) [Lit "Generated Image "; FmtNat 1];
       st_image (VImage 5) [Lit "Generated Image "; FmtNat 2];
       st_image (VImage 7) [Lit "Generated Image "; FmtNat 3]] ∧
  gallery_section
    (λ v, match v with
          | VImage 5 => Some (OSError "image file is truncated")
          | _ => None
          end)
    (world_of {| contextImages := []; currentImage := Some 7;
                 currentDescription := ""; history := [3; 5; 7] |})
    = ({| session_state := state_of
            {| contextImages := []; currentImage := Some 7;
               currentDescription := ""; history := [3; 5; 7] |};
          page := [st_markdown [Lit "---"];
                   st_subheader "All Generated Images in this Session";
                   st_image (VImage 3) [Lit "Generated Image "; FmtNat 1]];
          calls := [] |}, inl (Exc (OSError "image file is truncated"))).
Proof.
  split.
  - apply (gallery_lists_every_image (λ _, None)
      (world_of {| contextImages := []; currentImage := Some 7;
                   currentDescription := ""; history := [3; 5; 7] |}) [3; 5; 7]).
    + vm_compute. reflexivity.
    + repeat constructor.
  - pose proof (gallery_lists_every_image
      (λ v, match v with
            | VImage 5 => Some (OSError "image file is truncated")
            | _ => None
            end)
      (world_of {| contextImages := []; currentImage := Some 7;
                   currentDescription := ""; history := [3; 5; 7] |}) [3; 5; 7])
      as H.
    destruct H as (Hss & Hcs & _ & Hstop); [vm_compute; reflexivity|].
    destruct (Hstop [3] 5 [7] (OSError "image file is truncated"))
      as [Hout Hpage]; [reflexivity | repeat constructor | reflexivity |].
    destruct (gallery_section _ _) as [[ss pg cs] out].
    cbn in Hss, Hcs, Hout, Hpage. by subst.
Defined.

(** Pressing the follow-up button before any image exists does nothing. *)
Lemma idle_execution_keeps_session_witness :
  session_state (main Sample.Image_open (λ _, None)
                   (env_replying (inr Sample.reply_image))
                   (submit_followup "make it blue" [Sample.photo])
                   (world_of empty_session)).1
    = state_of empty_session ∧
  calls (main Sample.Image_open (λ _, None)
           (env_replying (inr Sample.reply_image))
           (submit_followup "make it blue" [Sample.photo])
           (world_of empty_session)).1 = [] ∧
  (main Sample.Image_open (λ _, None) (env_replying (inr Sample.reply_image))
     (submit_followup "make it blue" [Sample.photo])
     (world_of empty_session)).2 = inr tt.
Proof.
  pose proof (idle_execution_keeps_session Sample.Image_open (λ _, None)
           (env_replying (inr Sample.reply_image))
           (submit_followup "make it blue" [Sample.photo])
           (world_of empty_session) empty_session (VStr "key")) as H.
  destruct H as (Hss & Hcs & Hout).
  - reflexivity.
  - reflexivity.
  - vm_compute. reflexivity.
  - reflexivity.
  - right. reflexivity.
  - split; [exact Hss|]. split; [exact Hcs|]. apply Hout.
    + exact I.
    + constructor.
Defined.

(** After one initial round with an image, the current image is the one
    generated. *)
Lemma current_image_is_last_generated_witness :
  Some 3 = last [3] ∧ (Some 3 = None ↔ [3] = []).
Proof.
  apply (current_image_is_last_generated Sample.Image_open (λ _, None)
    [(env_replying (inr Sample.reply_image),
      submit_initial "a ring" [Sample.sketch])]
    {| contextImages := [2]; currentImage := Some 3;
       currentDescription := "A gold ring." +:+ newline; history := [3] |}).
  vm_compute. reflexivity.
Defined.

(** A failed follow-up round after a successful initial one keeps a current
    image. *)
Lemma current_image_never_cleared_witness :
  ∃ s' img',
    session_of (session_state (run_session Sample.Image_open (λ _, None)
      ([(env_replying (inr Sample.reply_image),
         submit_initial "a ring" [Sample.sketch])] ++
       [(env_replying (inl (ServiceError "quota exceeded")),
         submit_followup "make it blue" [])]) fresh)) = Some s' ∧
    currentImage s' = Some img'.
Proof.
  apply (current_image_never_cleared Sample.Image_open (λ _, None)
    [(env_replying (inr Sample.reply_image),
      submit_initial "a ring" [Sample.sketch])]
    [(env_replying (inl (ServiceError "quota exceeded")),
      submit_followup "make it blue" [])]
    {| contextImages := [2]; currentImage := Some 3;
       currentDescription := "A gold ring." +:+ newline; history := [3] |} 3).
  - vm_compute. reflexivity.
  - reflexivity.
Defined.

(** On a fresh connection, with images that can always be drawn: with a key
    the first execution runs to its end or asks for a rerun; with a store
    that holds no key it stops; with no key and no store it ends on the
    store's exception. *)
Lemma execution_end_witness :
  ((main Sample.Image_open (λ _, None) (env_replying (inr Sample.reply_image))
      (submit_initial "a ring" []) fresh).2 = inr tt ∨
   (main Sample.Image_open (λ _, None) (env_replying (inr Sample.reply_image))
      (submit_initial "a ring" []) fresh).2 = inl RerunException) ∧
  (main Sample.Image_open (λ _, None)
     {| environ := ∅; secrets := Some ∅;
        service := λ _ _, inr Sample.reply_image |}
     (submit_initial "a ring" []) fresh).2 = inl StopException ∧
  main Sample.Image_open (λ _, None)
    {| environ := ∅; secrets := None;
       service := λ _ _, inr Sample.reply_image |}
    (submit_initial "a ring" []) fresh
    = (fresh, inl (Exc StreamlitSecretNotFoundError)).
Proof.
  split; [|split].
  - apply (proj2 (execution_end Sample.Image_open (λ _, None)
             (env_replying (inr Sample.reply_image))
             (submit_initial "a ring" []) fresh
             (ex_intro _ empty_session eq_refl))) with (key := VStr "key").
    + reflexivity.
    + reflexivity.
    + reflexivity.
  - exact (proj1 (execution_end Sample.Image_open (λ _, None)
             {| environ := ∅; secrets := Some ∅;
                service := λ _ _, inr Sample.reply_image |}
             (submit_initial "a ring" []) fresh
             (ex_intro _ empty_session eq_refl))).
  - exact (proj2 (proj1 (execution_end Sample.Image_open (λ _, None)
             {| environ := ∅; secrets := None;
                service := λ _ _, inr Sample.reply_image |}
             (submit_initial "a ring" []) fresh
             (ex_intro _ empty_session eq_refl)))).
Defined.
